(** * deckformat: tool identity, file compatibility and the history ledger

    A shallow embedding of package [deckformat] of go-apiops
    (identity of the running tool, the [_transform] and [_format_version]
    compatibility checks between two decK files, and the [_ignore] history
    array), together with the pieces of the Go runtime and of the standard
    packages [strings], [strconv], [fmt] and [errors] that the package
    relies on, and of the command [openapi2kong] of package [cmd], which
    stamps the file it writes with a history entry.

    Conventions.
    - A Go [(T, error)] or [error] result is a [result T]: [Ok], [Err] with
      the Go error value, or [Panic] with the panic message.
    - A decK file in memory is a [map[string]interface{}]: [None] is the
      nil map, [Some m] a map whose keys may be bound to [VNil].
    - Slices and maps nested inside a file are references into a store of
      objects, so that sharing between a file and a value handed out to a
      caller can be told apart from a copy.
    - Package state ([toolInfo]) and the file being updated are threaded
      through explicitly. *)

From Stdlib Require Import ZArith String Ascii List DecimalString DecimalPos DecimalZ Lia.
From stdpp Require Import gmap strings list fin_maps.

Set Warnings "-register-all".

(** ** Errors, results and panics *)

(** The two error shapes the package builds: [errors.New] / [fmt.Errorf]
    without [%w] give a plain message, [fmt.Errorf] with [%w] keeps the
    wrapped error next to the formatted message. *)
Inductive error :=
| errorString (s : string)
| wrapError (msg : string) (err : error).

(** The [Error()] method. *)
Definition Error (e : error) : string :=
  match e with
  | errorString s => s
  | wrapError msg _ => msg
  end.

(** The [Unwrap()] method ([errors.Unwrap]). *)
Definition Unwrap (e : error) : option error :=
  match e with
  | errorString _ => None
  | wrapError _ err => Some err
  end.

Inductive result (A : Type) :=
| Ok (a : A)
| Err (e : error)
| Panic (msg : string).
Arguments Ok {A} a.
Arguments Err {A} e.
Arguments Panic {A} msg.

#[global] Instance result_ret : MRet result := fun A a => Ok a.
#[global] Instance result_bind : MBind result := fun A B f r =>
  match r with
  | Ok a => f a
  | Err e => Err e
  | Panic msg => Panic msg
  end.

Module errors.
Definition New (text : string) : error := errorString text.
End errors.

Module fmt.
(** [%d] of an [int]. *)
Definition d (z : Z) : string := NilZero.string_of_int (Z.to_int z).
(** [fmt.Errorf(prefix + "%w", err)]. *)
Definition Errorf_w (prefix : string) (err : error) : error :=
  wrapError (prefix +:+ Error err) err.
End fmt.

(** ** [interface{}] values and the store *)

Abbreviation loc := positive (only parsing).

(** What an [interface{}] of a decoded file holds. A slice or a map is a
    reference ([None]: the nil slice, the nil map); scalars are immediate. *)
Inductive value :=
| VNil
| VBool (b : bool)
| VNum (n : Z)
| VStr (s : string)
| VArr (a : option loc)
| VMap (m : option loc).

#[global] Instance value_eq_dec : EqDecision value.
Proof. solve_decision. Defined.

(** Objects of the store: the backing array of a slice, and the entries
    of a nested map (the package never indexes a nested map, it only
    walks it, so its entries are kept as a list). *)
Inductive object :=
| OArr (elems : list value)
| OMap (fields : list (string * value)).

Abbreviation store := (gmap positive object) (only parsing).
Abbreviation slice := (option positive) (only parsing).
Abbreviation document := (option (gmap string value)) (only parsing).

(** [v == nil] on an [interface{}]. *)
Definition isNil (v : value) : bool :=
  match v with
  | VNil => true
  | _ => false
  end.

(** [data[key]]: reading a nil map or a missing key gives nil. *)
Definition index (data : document) (key : string) : value :=
  match data with
  | None => VNil
  | Some m => default VNil (m !! key)
  end.

(** The elements a slice shows. *)
Definition elements (σ : store) (s : slice) : option (list value) :=
  match s with
  | None => Some []
  | Some l =>
      match σ !! l with
      | Some (OArr vs) => Some vs
      | _ => None
      end
  end.

(** [append(s, v)]. Every backing array of the store is exactly as long as
    the slice that shows it (no spare capacity), so appending allocates the
    grown array. *)
Definition append (σ : store) (s : slice) (v : value) : option (slice * store) :=
  vs ← elements σ s;
  let l := fresh (dom σ) in
  Some (Some l, <[l := OArr (vs ++ [v])]> σ).

(** *** The JSON-like tree a value stands for *)

Inductive tree :=
| TNil
| TBool (b : bool)
| TNum (n : Z)
| TStr (s : string)
| TArr (elems : list tree)
| TMap (fields : list (string * tree)).

(** Walks the references below [v]. An object is taken out of the store
    while its own elements are walked, so the walk fails on a reference
    back to an enclosing object (a cycle) and on a dangling one, and
    [fuel] above the size of the store is never used up. *)
Fixpoint denote_fuel (fuel : nat) (src : store) (v : value) : option tree :=
  match v with
  | VNil => Some TNil
  | VBool b => Some (TBool b)
  | VNum n => Some (TNum n)
  | VStr s => Some (TStr s)
  | VArr None => Some (TArr [])
  | VMap None => Some (TMap [])
  | VArr (Some l) =>
      match fuel with
      | O => None
      | S f =>
          match src !! l with
          | Some (OArr vs) => TArr <$> mapM (denote_fuel f (delete l src)) vs
          | _ => None
          end
      end
  | VMap (Some l) =>
      match fuel with
      | O => None
      | S f =>
          match src !! l with
          | Some (OMap kvs) =>
              ts ← mapM (denote_fuel f (delete l src)) kvs.*2;
              Some (TMap (zip kvs.*1 ts))
          | _ => None
          end
      end
  end.

Definition denote (σ : store) (v : value) : option tree :=
  denote_fuel (S (size σ)) σ v.

(** ** Package [jsonbasics] (helpers on decoded JSON) *)

Module jsonbasics.

(** Modelled from the spec: [jsonbasics.GetStringField] is not part of the
    sources at hand. The field is read as a string; a missing key or a
    value that is not a string is an error ("fails ... if the key is
    missing, is not a string"). The text of the error is not fixed by the
    spec; [ParseFormatVersion] replaces it. *)
Definition GetStringField (object : document) (fieldName : string) : result string :=
  match index object fieldName with
  | VStr s => Ok s
  | _ => Err (errors.New ("expected key '" +:+ fieldName +:+ "' to be a string"))
  end.

(** Modelled from the spec: [jsonbasics.GetBoolField] is not part of the
    sources at hand. The field is read as a boolean ([_transform] is a
    boolean); a missing key or a value of another type is an error. *)
Definition GetBoolField (object : document) (fieldName : string) : result bool :=
  match index object fieldName with
  | VBool b => Ok b
  | _ => Err (errors.New ("expected key '" +:+ fieldName +:+ "' to be a boolean"))
  end.

(** Modelled from the spec: [jsonbasics.ToArray] is not part of the sources
    at hand. The value is returned as the slice it is ("attempts to
    interpret the value as a sequence"), the same slice and not a copy;
    any other value is an error. *)
Definition ToArray (data : value) : result slice :=
  match data with
  | VArr a => Ok a
  | _ => Err (errors.New "not an array")
  end.

(** State-passing traversal of a list of values: [c] copies one value
    into the store it is given. *)
Fixpoint copy_list (c : value -> store -> option (value * store))
    (vs : list value) (dst : store) : option (list value * store) :=
  match vs with
  | [] => Some ([], dst)
  | v :: vs' =>
      match c v dst with
      | Some (v', dst1) =>
          match copy_list c vs' dst1 with
          | Some (vs'', dst2) => Some (v' :: vs'', dst2)
          | None => None
          end
      | None => None
      end
  end.

(** Copies the value [v], read in [src], into [dst]: scalars are kept,
    every slice and map below [v] is rebuilt in a newly allocated object.
    The walk is that of [denote_fuel]. *)
Fixpoint copy_fuel (fuel : nat) (src : store) (v : value) (dst : store)
    : option (value * store) :=
  match v with
  | VArr (Some l) =>
      match fuel with
      | O => None
      | S f =>
          match src !! l with
          | Some (OArr vs) =>
              match copy_list (copy_fuel f (delete l src)) vs dst with
              | Some (vs', dst') =>
                  let l' := fresh (dom dst') in
                  Some (VArr (Some l'), <[l' := OArr vs']> dst')
              | None => None
              end
          | _ => None
          end
      end
  | VMap (Some l) =>
      match fuel with
      | O => None
      | S f =>
          match src !! l with
          | Some (OMap kvs) =>
              match copy_list (copy_fuel f (delete l src)) kvs.*2 dst with
              | Some (vs', dst') =>
                  let l' := fresh (dom dst') in
                  Some (VMap (Some l'), <[l' := OMap (zip kvs.*1 vs')]> dst')
              | None => None
              end
          | _ => None
          end
      end
  | _ => Some (v, dst)
  end.

(** Modelled from the spec: [jsonbasics.DeepCopyArray] is not part of the
    sources at hand. It returns a deep copy of the array ("always returns a
    deep copy, never a live view"): the slice and everything below it are
    rebuilt in new objects, the objects that exist are left as they are.
    The spec's values are finite trees; on a store where the slice is not
    one (a dangling or cyclic reference) there is no copy ([None]). *)
Definition DeepCopyArray (σ : store) (data : slice) : option (slice * store) :=
  match copy_fuel (S (size σ)) σ (VArr data) σ with
  | Some (VArr a, σ') => Some (a, σ')
  | _ => None
  end.

End jsonbasics.

(** ** Packages [strings] and [strconv] *)

Module strings.
(** [strings.Split(s, sep)] for a separator of one byte: the pieces of [s]
    between the separators, [[""]] for the empty string (never an empty
    list). *)
Fixpoint Split (s : string) (sep : ascii) : list string :=
  match s with
  | EmptyString => [EmptyString]
  | String c rest =>
      if Ascii.eqb c sep then EmptyString :: Split rest sep
      else
        match Split rest sep with
        | hd :: tl => String c hd :: tl
        | [] => [String c EmptyString]
        end
  end.
End strings.

(** The size of [int] is that of the target the binary is built for. *)
Inductive GOARCH := GOARCH32 | GOARCH64.

Module strconv.
Definition intSize (arch : GOARCH) : Z :=
  match arch with
  | GOARCH32 => 32
  | GOARCH64 => 64
  end.
Definition maxInt (arch : GOARCH) : Z := 2 ^ (intSize arch - 1) - 1.
Definition minInt (arch : GOARCH) : Z := - 2 ^ (intSize arch - 1).

(** The value of one decimal digit ([ch - '0'], refused above 9). *)
Definition digit (ch : ascii) : option Z :=
  let d := (Z.of_N (N_of_ascii ch) - 48)%Z in
  if (0 <=? d)%Z && (d <=? 9)%Z then Some d else None.

(** [n = n*10 + digit] over the bytes of [s]. *)
Fixpoint digits (n : Z) (s : string) : option Z :=
  match s with
  | EmptyString => Some n
  | String ch rest =>
      match digit ch with
      | Some d => digits (n * 10 + d)%Z rest
      | None => None
      end
  end.

(** [strconv.Atoi], that is [ParseInt(s, 10, 0)]: an optional sign [+] or
    [-], then one or more decimal digits and nothing else; the value has
    to fit [int]. [None] stands for the [*NumError] (syntax or range);
    its callers here only test it against nil. *)
Definition Atoi (arch : GOARCH) (s : string) : option Z :=
  match s with
  | EmptyString => None
  | String c rest =>
      let neg := Ascii.eqb c "-" in
      let body := if neg || Ascii.eqb c "+" then rest else s in
      match body with
      | EmptyString => None
      | _ =>
          match digits 0 body with
          | None => None
          | Some n =>
              let z := if neg then (- n)%Z else n in
              if (minInt arch <=? z)%Z && (z <=? maxInt arch)%Z then Some z else None
          end
      end
  end.
End strconv.

(** ** Package [deckformat] *)

Definition VersionKey : string := "_format_version".
Definition TransformKey : string := "_transform".
Definition HistoryKey : string := "_ignore".

(** *** The tool information (set once at startup) *)

(** The package variable [toolInfo]; a process starts with [toolInfo0]. *)
Record toolInfo := { name : string; version : string; commit : string }.

Definition toolInfo0 : toolInfo := {| name := ""; version := ""; commit := "" |}.

Definition ToolVersionSet (st : toolInfo) (name' version' commit' : string)
    : result toolInfo :=
  if negb (name st =? "")%string || (name' =? "")%string then
    Panic "the tool information was already set, or cannot be set to an empty string"
  else
    Ok {| name := name'; version := version'; commit := commit' |}.

Definition ToolVersionGet (st : toolInfo) : result (string * string * string) :=
  if (name st =? "")%string then
    Panic "the tool information wasn't set, call ToolVersionSet first"
  else
    Ok (name st, version st, commit st).

Definition ToolVersionString (st : toolInfo) : result string :=
  '(n, v, c) ← ToolVersionGet st;
  if negb (c =? "")%string then
    Ok (n +:+ " " +:+ v +:+ " (" +:+ c +:+ ")")
  else if negb (v =? "")%string then
    Ok (n +:+ " " +:+ v)
  else
    Ok n.

(** *** Compatibility between two files *)

Definition errTransform : error :=
  errors.New ("files with '" +:+ TransformKey +:+ ": true' (default) and '" +:+
              TransformKey +:+ ": false' are not compatible").

Definition CompatibleTransform (data1 data2 : document) : result unit :=
  match data1, data2 with
  | None, _ => Panic "expected 'data1' to be non-nil"
  | Some _, None => Panic "expected 'data2' to be non-nil"
  | Some _, Some _ =>
      transform1 ←
        (if negb (isNil (index data1 TransformKey))
         then jsonbasics.GetBoolField data1 TransformKey
         else Ok true);
      transform2 ←
        (if negb (isNil (index data2 TransformKey))
         then jsonbasics.GetBoolField data2 TransformKey
         else Ok true);
      if negb (Bool.eqb transform1 transform2) then Err errTransform
      else Ok tt
  end.

Definition errFormatVersion : error :=
  errors.New ("expected field '." +:+ VersionKey +:+ "' to be a string in 'x.y' format").

Definition ParseFormatVersion (arch : GOARCH) (data : document) : result (Z * Z) :=
  match jsonbasics.GetStringField data VersionKey with
  | Ok v =>
      let elem := strings.Split v "." in
      if Nat.ltb 2 (length elem) then Err errFormatVersion
      else
        match elem !! 0%nat with
        | None => Panic "index out of range"
        | Some elem0 =>
            match strconv.Atoi arch elem0 with
            | None => Err errFormatVersion
            | Some majorVersion =>
                match elem !! 1%nat with
                | Some elem1 =>
                    match strconv.Atoi arch elem1 with
                    | None => Err errFormatVersion
                    | Some minorVersion => Ok (majorVersion, minorVersion)
                    end
                | None => Ok (majorVersion, 0%Z)
                end
            end
        end
  | _ => Err errFormatVersion
  end.

Definition errMajor (major1 minor1 major2 minor2 : Z) : error :=
  errors.New ("major versions are incompatible; " +:+ fmt.d major1 +:+ "." +:+
              fmt.d minor1 +:+ " and " +:+ fmt.d major2 +:+ "." +:+ fmt.d minor2).

Definition CompatibleVersion (arch : GOARCH) (data1 data2 : document) : result unit :=
  match data1, data2 with
  | None, _ => Panic "expected 'data1' to be non-nil"
  | Some _, None => Panic "expected 'data2' to be non-nil"
  | Some _, Some _ =>
      if isNil (index data1 VersionKey) then
        if isNil (index data2 VersionKey) then Ok tt
        else _ ← ParseFormatVersion arch data2; Ok tt
      else if isNil (index data2 VersionKey) then
        _ ← ParseFormatVersion arch data1; Ok tt
      else
        '(major1, minor1) ← ParseFormatVersion arch data1;
        '(major2, minor2) ← ParseFormatVersion arch data2;
        if negb (major1 =? major2)%Z then Err (errMajor major1 minor1 major2 minor2)
        else Ok tt
  end.

Definition CompatibleFile (arch : GOARCH) (data1 data2 : document) : result unit :=
  match CompatibleTransform data1 data2 with
  | Err err => Err (fmt.Errorf_w "files are incompatible; " err)
  | Panic msg => Panic msg
  | Ok _ =>
      match CompatibleVersion arch data1 data2 with
      | Err err => Err (fmt.Errorf_w "files are incompatible; " err)
      | Panic msg => Panic msg
      | Ok _ => Ok tt
      end
  end.

(** *** The history of a file *)

Definition HistoryGet (σ : store) (filedata : document) : option (slice * store) :=
  if match filedata with None => true | Some _ => isNil (index filedata HistoryKey) end
  then
    let historyInfo := fresh (dom σ) in
    Some (Some historyInfo, <[historyInfo := OArr []]> σ)
  else
    match jsonbasics.ToArray (index filedata HistoryKey) with
    | Ok trackInfo => jsonbasics.DeepCopyArray σ trackInfo
    | _ =>
        let trackInfo := fresh (dom σ) in
        jsonbasics.DeepCopyArray
          (<[trackInfo := OArr [index filedata HistoryKey]]> σ) (Some trackInfo)
    end.

(** [delete(filedata, HistoryKey)]; deleting from a nil map does nothing. *)
Definition HistoryClear (filedata : document) : document :=
  delete HistoryKey <$> filedata.

Definition HistorySet (filedata : document) (historyArray : slice) : result document :=
  match historyArray with
  | None => Ok (HistoryClear filedata)
  | Some _ =>
      match filedata with
      | None => Panic "assignment to entry in nil map"
      | Some m => Ok (HistoryClear (Some (<[HistoryKey := VArr historyArray]> m)))
      end
  end.

Definition HistoryAppend (σ : store) (filedata : document) (newEntry : value)
    : option (result document * store) :=
  '(hist, σ1) ← HistoryGet σ filedata;
  '(hist', σ2) ← append σ1 hist newEntry;
  Some (HistorySet filedata hist', σ2).

Definition HistoryNewEntry (st : toolInfo) (cmd : string) : result (gmap string value) :=
  tool ← ToolVersionString st;
  Ok (<["command" := VStr cmd]> (<["tool" := VStr tool]> ∅)).

(** ** Command [openapi2kong] (package [cmd]) *)

(** The flags of a [cobra.Command], as its getters answer. *)
Record FlagSet := {
  GetInt : string → result Z;
  GetString : string → result string;
  GetStringSlice : string → result (list string)
}.

(** [openapi2kong.O2kOptions], as far as the command fills it. *)
Record O2kOptions := { Tags : option (list string); DocName : string }.

(** What the command does to the outside, in the order it does it. *)
Inductive event :=
| LogInitialize (verbosity : Z)
| FileRead (filename : string)
| FileWritten (filename : string) (data : document) (σ : gmap positive object)
    (format : string).

(** [fmt.Errorf(prefix + "%w", err)] around a call that may fail. *)
Definition wrapping {A} (prefix : string) (r : result A) : result A :=
  match r with
  | Err err => Err (fmt.Errorf_w prefix err)
  | _ => r
  end.

Section openapi2kong.

(** The packages the command calls are not part of the sources at hand:
    the bytes read from a file, [strings.ToUpper], [filebasics.ReadFile],
    [openapi2kong.Convert] (which builds its result in the store) and
    [filebasics.WriteSerializedFile] are whatever they are. *)
Context {content : Type}.
Variable ToUpper : string → string.
Variable ReadFile : string → result content.
Variable Convert : content → O2kOptions → store → result (document * store).
Variable WriteSerializedFile : string → document → store → string → result unit.

(** The first part of [executeOpenapi2Kong], up to the first file access:
    the flags and the history entry. *)
Definition openapi2kongArguments (st : toolInfo) (flags : FlagSet)
    : result (string * string * string * O2kOptions * gmap string value) :=
  inputFilename ← wrapping "failed getting cli argument 'spec'; " (GetString flags "spec");
  outputFilename ←
    wrapping "failed getting cli argument 'output-file'; " (GetString flags "output-file");
  docName ← wrapping "failed getting cli argument 'uuid-base'; " (GetString flags "uuid-base");
  tags ←
    wrapping "failed getting cli argument 'select-tag'; " (GetStringSlice flags "select-tag");
  let entityTags := if Nat.eqb (length tags) 0 then None else Some tags in
  outputFormat ← wrapping "failed getting cli argument 'format'; " (GetString flags "format");
  let outputFormat := ToUpper outputFormat in
  let options := {| Tags := entityTags; DocName := docName |} in
  trackInfo ← HistoryNewEntry st "openapi2kong";
  let trackInfo := <["input" := VStr inputFilename]> trackInfo in
  let trackInfo := <["output" := VStr outputFilename]> trackInfo in
  let trackInfo := <["uuid-base" := VStr docName]> trackInfo in
  Ok (inputFilename, outputFilename, outputFormat, options, trackInfo).

(** [executeOpenapi2Kong]: the events of the run and what it returns
    ([None]: a store in which the converted file is not a tree). The map
    [trackInfo] is an object of the store from the moment it is made. *)
Definition executeOpenapi2Kong (st : toolInfo) (flags : FlagSet) (σ : store)
    : option (list event * result unit) :=
  let verbosity := match GetInt flags "verbose" with Ok n => n | _ => 0%Z end in
  let log := [LogInitialize verbosity] in
  match openapi2kongArguments st flags with
  | Err err => Some (log, Err err)
  | Panic msg => Some (log, Panic msg)
  | Ok (inputFilename, outputFilename, outputFormat, options, trackInfo) =>
      let l := fresh (dom σ) in
      let σ0 := <[l := OMap (map_to_list trackInfo)]> σ in
      match ReadFile inputFilename with
      | Err err => Some (log ++ [FileRead inputFilename], Err err)
      | Panic msg => Some (log ++ [FileRead inputFilename], Panic msg)
      | Ok content =>
          match Convert content options σ0 with
          | Err err =>
              Some (log ++ [FileRead inputFilename],
                    Err (fmt.Errorf_w
                           ("failed converting OpenAPI spec '" +:+ inputFilename +:+ "'; ")
                           err))
          | Panic msg => Some (log ++ [FileRead inputFilename], Panic msg)
          | Ok (result, σ1) =>
              '(appended, σ2) ← HistoryAppend σ1 result (VMap (Some l));
              match appended with
              | Ok result' =>
                  Some (log ++ [FileRead inputFilename;
                                FileWritten outputFilename result' σ2 outputFormat],
                        WriteSerializedFile outputFilename result' σ2 outputFormat)
              | Err err => Some (log ++ [FileRead inputFilename], Err err)
              | Panic msg => Some (log ++ [FileRead inputFilename], Panic msg)
              end
          end
      end
  end.

End openapi2kong.

(** ** Notions the statements below are phrased with *)

(** The calls a process makes to [ToolVersionSet], one after the other. A
    call that panics has not touched [toolInfo] (the test comes before the
    three assignments), so the state after it is the state before it. *)
Definition set_call (st : toolInfo) (call : string * string * string) : toolInfo :=
  match ToolVersionSet st call.1.1 call.1.2 call.2 with
  | Ok st' => st'
  | _ => st
  end.

Definition after_calls (st : toolInfo) (calls : list (string * string * string)) : toolInfo :=
  fold_left set_call calls st.

(** The flag a file resolves to: [true] when [data[TransformKey]] is nil,
    the boolean it is bound to otherwise; no flag for any other value. *)
Definition transformOf (m : gmap string value) : option bool :=
  match index (Some m) TransformKey with
  | VNil => Some true
  | VBool b => Some b
  | _ => None
  end.

(** A file states a key when it binds it to something that is not nil. *)
Definition states (m : gmap string value) (key : string) : bool :=
  negb (isNil (index (Some m) key)).

(** [ParseFormatVersion] on a file whose key holds the string [v], in
    terms of the pieces of [v]. *)
Definition parse_elems (arch : GOARCH) (elem : list string) : result (Z * Z) :=
  match elem with
  | [elem0] =>
      match strconv.Atoi arch elem0 with
      | Some major => Ok (major, 0%Z)
      | None => Err errFormatVersion
      end
  | [elem0; elem1] =>
      match strconv.Atoi arch elem0, strconv.Atoi arch elem1 with
      | Some major, Some minor => Ok (major, minor)
      | _, _ => Err errFormatVersion
      end
  | _ => Err errFormatVersion
  end.

(** The value of a decimal numeral: one or more of the digits 0 to 9 and
    nothing else, read in base 10 by the decimal numbers of the standard
    library; [None] for any other string. *)
Definition numeral (s : string) : option Z :=
  match s with
  | EmptyString => None
  | _ => Z.of_uint <$> NilEmpty.uint_of_string s
  end.

(** A string without its leading sign, if it has one. *)
Definition unsign (s : string) : string :=
  match s with
  | String c rest => if Ascii.eqb c "-" || Ascii.eqb c "+" then rest else s
  | EmptyString => s
  end.


(** [v] stands for the tree [t] in the store [σ]. *)
Definition denotes (σ : store) (v : value) (t : tree) : Prop :=
  ∃ n, denote_fuel n σ v = Some t.

(** [τ] has every object that [new] has and [old] does not have. *)
Definition carries (old new τ : store) : Prop :=
  ∀ l o, new !! l = Some o → old !! l = None → τ !! l = Some o.

(** The slice [s] of the store [σ'] is a copy, made from the store [σ], of
    a sequence of values standing for [ts]: [σ'] has every object of [σ]
    as it was, the backing array of [s] is not an object of [σ], and [s]
    stands for [ts] by the objects that [σ'] added alone, that is in every
    store that has them, whatever it holds at the locations of [σ]. *)
Definition copy_in (σ σ' : store) (s : slice) (ts : list tree) : Prop :=
  σ ⊆ σ' ∧
  (∀ l, s = Some l → σ !! l = None) ∧
  (∀ τ : store, carries σ σ' τ → denotes τ (VArr s) (TArr ts)).

(** What copying one value into [dst] results in: the copy [r.1] and the
    store [r.2]. *)
Definition copied (dst : store) (t : tree) (r : value * store) : Prop :=
  dst ⊆ r.2 ∧
  (∀ τ : store, carries dst r.2 τ → denotes τ r.1 t) ∧
  (∀ l, r.1 = VArr (Some l) ∨ r.1 = VMap (Some l) → dst !! l = None).

(** * Properties *)

(** ** The tool information *)

Lemma eqb_empty_false (s : string) : s ≠ ""%string → (s =? "")%string = false.
Proof. intros H. by apply String.eqb_neq. Qed.

Lemma ToolVersionSet_Ok st n v c :
  name st = ""%string → n ≠ ""%string →
  ToolVersionSet st n v c = Ok {| name := n; version := v; commit := c |}.
Proof.
  intros Hst Hn. unfold ToolVersionSet.
  by rewrite Hst, (eqb_empty_false n).
Qed.

Lemma ToolVersionSet_Panic st n v c :
  (∃ msg, ToolVersionSet st n v c = Panic msg) ↔ (n = ""%string ∨ name st ≠ ""%string).
Proof.
  unfold ToolVersionSet.
  destruct (String.eqb_spec (name st) "") as [Hst|Hst];
    destruct (String.eqb_spec n "") as [Hn|Hn]; simpl;
    split; intros H; eauto; try (destruct H as [msg H]; discriminate);
    destruct H; congruence.
Qed.

Lemma ToolVersionGet_Ok st :
  name st ≠ ""%string → ToolVersionGet st = Ok (name st, version st, commit st).
Proof. intros H. unfold ToolVersionGet. by rewrite eqb_empty_false. Qed.

Lemma set_call_set st call : name st ≠ ""%string → set_call st call = st.
Proof.
  intros H. unfold set_call, ToolVersionSet.
  by rewrite (eqb_empty_false _ H).
Qed.

Lemma after_calls_set st calls : name st ≠ ""%string → after_calls st calls = st.
Proof.
  intros H. unfold after_calls. induction calls as [|call calls IH]; simpl; [done|].
  by rewrite set_call_set.
Qed.

Lemma after_calls_unset st calls :
  name st = ""%string →
  (name (after_calls st calls) ≠ ""%string ↔ Exists (λ call, call.1.1 ≠ ""%string) calls).
Proof.
  unfold after_calls. revert st.
  induction calls as [|[[n v] c] calls IH]; intros st Hst; simpl.
  - rewrite Exists_nil. naive_solver.
  - rewrite Exists_cons. simpl.
    destruct (decide (n = ""%string)) as [->|Hn].
    + assert (set_call st (""%string, v, c) = st) as ->.
      { unfold set_call, ToolVersionSet. simpl. by rewrite orb_true_r. }
      rewrite (IH st Hst). naive_solver.
    + assert (set_call st (n, v, c) = {| name := n; version := v; commit := c |}) as ->.
      { unfold set_call. simpl. by rewrite ToolVersionSet_Ok. }
      pose proof (after_calls_set {| name := n; version := v; commit := c |} calls Hn) as E.
      unfold after_calls in E. rewrite E. simpl. naive_solver.
Qed.

(** C7. The tool identity is write-once. [ToolVersionSet] panics exactly
    when the name given is empty or a name is already stored, and stores
    the three strings otherwise; [ToolVersionGet] panics exactly when no
    name is stored and returns the stored strings otherwise. In a process
    (starting from the zero [toolInfo]) a name is stored exactly when an
    earlier call gave a non-empty name, and once it is, no later call
    changes what is stored. *)
Theorem ToolVersion_write_once :
  (∀ st n v c,
      (∃ msg, ToolVersionSet st n v c = Panic msg) ↔ (n = ""%string ∨ name st ≠ ""%string)) ∧
  (∀ st n v c,
      ¬ (n = ""%string ∨ name st ≠ ""%string) →
      ToolVersionSet st n v c = Ok {| name := n; version := v; commit := c |}) ∧
  (∀ st, (∃ msg, ToolVersionGet st = Panic msg) ↔ name st = ""%string) ∧
  (∀ st, name st ≠ ""%string → ToolVersionGet st = Ok (name st, version st, commit st)) ∧
  (∀ calls,
      name (after_calls toolInfo0 calls) ≠ ""%string ↔
      Exists (λ call, call.1.1 ≠ ""%string) calls) ∧
  (∀ st calls, name st ≠ ""%string → after_calls st calls = st).
Proof.
  split_and!.
  - apply ToolVersionSet_Panic.
  - intros st n v c H. apply ToolVersionSet_Ok.
    + destruct (decide (name st = ""%string)); [done|]. exfalso. auto.
    + intros ->. auto.
  - intros st. unfold ToolVersionGet.
    destruct (String.eqb_spec (name st) ""); split; intros H; eauto;
      try done; by destruct H.
  - apply ToolVersionGet_Ok.
  - intros calls. by apply after_calls_unset.
  - apply after_calls_set.
Qed.

Lemma ToolVersionString_unfold st :
  name st ≠ ""%string →
  ToolVersionString st =
    if negb (commit st =? "")%string then
      Ok (name st +:+ " " +:+ version st +:+ " (" +:+ commit st +:+ ")")
    else if negb (version st =? "")%string then Ok (name st +:+ " " +:+ version st)
    else Ok (name st).
Proof. intros H. unfold ToolVersionString. by rewrite ToolVersionGet_Ok. Qed.

(** C6, as the code has it. For a stored identity, [ToolVersionString]
    is "name version (commit)" when version and commit are both
    non-empty, "name version" when only the version is non-empty, and the
    name alone when both are empty. *)
Theorem ToolVersionString_cases st :
  name st ≠ ""%string →
  (version st ≠ ""%string → commit st ≠ ""%string →
   ToolVersionString st =
     Ok (name st +:+ " " +:+ version st +:+ " (" +:+ commit st +:+ ")")) ∧
  (version st ≠ ""%string → commit st = ""%string →
   ToolVersionString st = Ok (name st +:+ " " +:+ version st)) ∧
  (version st = ""%string → commit st = ""%string →
   ToolVersionString st = Ok (name st)).
Proof.
  intros H. rewrite (ToolVersionString_unfold st H). split_and!.
  - intros _ Hc. by rewrite (eqb_empty_false _ Hc).
  - intros Hv ->. by rewrite (eqb_empty_false _ Hv).
  - by intros -> ->.
Qed.

Lemma ToolVersionString_cases_witness :
  ToolVersionString {| name := "kced"; version := "1.0"; commit := "abc123" |}
  = Ok "kced 1.0 (abc123)"%string.
Proof.
  apply (ToolVersionString_cases {| name := "kced"; version := "1.0"; commit := "abc123" |});
    simpl; discriminate.
Defined.

(** C6 as stated fails: with a commit and no version the result is not the
    name alone, the commit is still printed (after two spaces). *)
Lemma ToolVersionString_commit_only :
  ToolVersionString {| name := "deck"; version := ""; commit := "abc" |}
    = Ok "deck  (abc)"%string ∧
  ToolVersionString {| name := "deck"; version := ""; commit := "abc" |}
    ≠ Ok "deck"%string.
Proof. split; [reflexivity | discriminate]. Qed.

(** ** Compatibility of the [_transform] flags *)

(** Reading the flag of one file, as [CompatibleTransform] does for each of
    its arguments. *)
Lemma read_flag_resolved m b :
  transformOf m = Some b →
  (if negb (isNil (index (Some m) TransformKey))
   then jsonbasics.GetBoolField (Some m) TransformKey
   else Ok true) = Ok b.
Proof.
  unfold transformOf, jsonbasics.GetBoolField.
  destruct (index (Some m) TransformKey); simpl; congruence.
Qed.

Lemma read_flag_unresolved m :
  transformOf m = None →
  isNil (index (Some m) TransformKey) = false ∧
  ∃ e, jsonbasics.GetBoolField (Some m) TransformKey = Err e ∧ e ≠ errTransform.
Proof.
  unfold transformOf, jsonbasics.GetBoolField.
  destruct (index (Some m) TransformKey); simpl; try congruence;
    intros _; (split; [done|]); eexists; (split; [done|]); by vm_compute.
Qed.

Lemma CompatibleTransform_resolved m1 m2 b1 b2 :
  transformOf m1 = Some b1 → transformOf m2 = Some b2 →
  CompatibleTransform (Some m1) (Some m2) =
    if negb (Bool.eqb b1 b2) then Err errTransform else Ok tt.
Proof.
  intros H1 H2. unfold CompatibleTransform.
  by rewrite (read_flag_resolved m1 b1 H1), (read_flag_resolved m2 b2 H2).
Qed.

Lemma CompatibleTransform_unresolved_1 m1 m2 :
  transformOf m1 = None →
  CompatibleTransform (Some m1) (Some m2)
  = _ ← jsonbasics.GetBoolField (Some m1) TransformKey; Ok tt.
Proof.
  intros H. destruct (read_flag_unresolved m1 H) as (Hnil & e & He & _).
  unfold CompatibleTransform. by rewrite Hnil, He.
Qed.

Lemma CompatibleTransform_unresolved_2 m1 m2 b1 :
  transformOf m1 = Some b1 → transformOf m2 = None →
  CompatibleTransform (Some m1) (Some m2)
  = _ ← jsonbasics.GetBoolField (Some m2) TransformKey; Ok tt.
Proof.
  intros H1 H. destruct (read_flag_unresolved m2 H) as (Hnil & e & He & _).
  unfold CompatibleTransform.
  by rewrite (read_flag_resolved m1 b1 H1), Hnil, He.
Qed.


(** C10. When the [_transform] key of a file is bound to a value that is
    neither nil nor a boolean, [CompatibleTransform] returns the error of
    [GetBoolField] for that file (the first file is read first): an
    ordinary error, not a panic and not the incompatibility error,
    whatever the flag of the other file is. *)
Theorem CompatibleTransform_field_type m1 m2 v :
  v ≠ VNil → (∀ b, v ≠ VBool b) →
  (index (Some m1) TransformKey = v →
   ∃ e, jsonbasics.GetBoolField (Some m1) TransformKey = Err e ∧
        CompatibleTransform (Some m1) (Some m2) = Err e ∧ e ≠ errTransform) ∧
  (is_Some (transformOf m1) → index (Some m2) TransformKey = v →
   ∃ e, jsonbasics.GetBoolField (Some m2) TransformKey = Err e ∧
        CompatibleTransform (Some m1) (Some m2) = Err e ∧ e ≠ errTransform).
Proof.
  intros Hnil Hbool.
  assert (∀ m, index (Some m) TransformKey = v → transformOf m = None) as Hv.
  { intros m E. unfold transformOf. rewrite E.
    destruct v; try done. by destruct (Hbool b). }
  split.
  - intros E. pose proof (Hv m1 E) as H1.
    destruct (read_flag_unresolved m1 H1) as (_ & e & He & Hne).
    exists e. rewrite (CompatibleTransform_unresolved_1 m1 m2 H1), He. done.
  - intros [b1 H1] E. pose proof (Hv m2 E) as H2.
    destruct (read_flag_unresolved m2 H2) as (_ & e & He & Hne).
    exists e. rewrite (CompatibleTransform_unresolved_2 m1 m2 b1 H1 H2), He. done.
Qed.

Lemma CompatibleTransform_field_type_witness :
  ∃ e, jsonbasics.GetBoolField (Some {[ TransformKey := VStr "yes" ]}) TransformKey = Err e ∧
       CompatibleTransform (Some {[ TransformKey := VStr "yes" ]})
                           (Some {[ TransformKey := VBool false ]}) = Err e ∧
       e ≠ errTransform.
Proof.
  apply (CompatibleTransform_field_type
           {[ TransformKey := VStr "yes" ]} {[ TransformKey := VBool false ]}
           (VStr "yes")); [discriminate | discriminate | reflexivity].
Defined.

(** ** Parsing [_format_version] *)

Lemma Split_cons s sep : ∃ hd tl, strings.Split s sep = hd :: tl.
Proof.
  induction s as [|c s (hd & tl & IH)]; simpl; [by eauto|].
  destruct (Ascii.eqb c sep); [by eauto|]. rewrite IH. eauto.
Qed.

Lemma ParseFormatVersion_string arch data v :
  index data VersionKey = VStr v →
  ParseFormatVersion arch data = parse_elems arch (strings.Split v ".").
Proof.
  intros H. unfold ParseFormatVersion, jsonbasics.GetStringField. rewrite H.
  destruct (Split_cons v ".") as (e0 & tl & ->).
  destruct tl as [|e1 [|e2 tl]]; simpl; try done.
  all: by destruct (strconv.Atoi arch e0).
Qed.

Lemma ParseFormatVersion_not_string arch data :
  (∀ v, index data VersionKey ≠ VStr v) →
  ParseFormatVersion arch data = Err errFormatVersion.
Proof.
  intros H. unfold ParseFormatVersion, jsonbasics.GetStringField.
  destruct (index data VersionKey) eqn:E; try done. by destruct (H s).
Qed.

(** Whatever the file, the parse ends in a pair or in the format error. *)
Lemma ParseFormatVersion_total arch data :
  (∃ major minor, ParseFormatVersion arch data = Ok (major, minor)) ∨
  ParseFormatVersion arch data = Err errFormatVersion.
Proof.
  destruct (index data VersionKey) eqn:E;
    try (right; apply ParseFormatVersion_not_string; intros v; rewrite E; discriminate).
  rewrite (ParseFormatVersion_string arch data s E). unfold parse_elems.
  destruct (strings.Split s ".") as [|e0 [|e1 [|e2 tl]]]; auto.
  - destruct (strconv.Atoi arch e0); eauto.
  - destruct (strconv.Atoi arch e0); [|by auto].
    destruct (strconv.Atoi arch e1); eauto.
Qed.

(** ** Compatibility of the format versions *)

Lemma CompatibleVersion_unfold arch m1 m2 :
  CompatibleVersion arch (Some m1) (Some m2) =
    if states m1 VersionKey then
      if states m2 VersionKey then
        '(major1, minor1) ← ParseFormatVersion arch (Some m1);
        '(major2, minor2) ← ParseFormatVersion arch (Some m2);
        if negb (major1 =? major2)%Z then Err (errMajor major1 minor1 major2 minor2)
        else Ok tt
      else _ ← ParseFormatVersion arch (Some m1); Ok tt
    else
      if states m2 VersionKey then _ ← ParseFormatVersion arch (Some m2); Ok tt
      else Ok tt.
Proof.
  unfold CompatibleVersion, states.
  by destruct (isNil (index (Some m1) VersionKey)), (isNil (index (Some m2) VersionKey)).
Qed.

Lemma validate_only arch data :
  ((_ ← ParseFormatVersion arch data; Ok tt) = Ok tt ↔
   ∃ major minor, ParseFormatVersion arch data = Ok (major, minor)) ∧
  (∀ e, ParseFormatVersion arch data = Err e →
        (_ ← ParseFormatVersion arch data; Ok tt) = Err e).
Proof.
  split.
  - destruct (ParseFormatVersion arch data) as [[major minor]|e|msg]; simpl;
      split; intros H; eauto; try done; by destruct H as (? & ? & ?).
  - by intros e ->.
Qed.

(** C1, as the code has it. For two non-nil files, with "states the key"
    meaning that the key is bound to something other than nil: the
    version check succeeds when neither file states [_format_version];
    when exactly one does, it succeeds iff the version of that file
    parses (and returns its format error otherwise); when both do, it
    succeeds iff both parse with equal major components, whatever the
    minor components, and on two parsed versions with different majors
    it returns the error whose message gives both versions as
    major.minor. *)
Theorem CompatibleVersion_cases arch m1 m2 :
  (states m1 VersionKey = false → states m2 VersionKey = false →
   CompatibleVersion arch (Some m1) (Some m2) = Ok tt) ∧
  (states m1 VersionKey = false → states m2 VersionKey = true →
   (CompatibleVersion arch (Some m1) (Some m2) = Ok tt ↔
    ∃ major minor, ParseFormatVersion arch (Some m2) = Ok (major, minor)) ∧
   (∀ e, ParseFormatVersion arch (Some m2) = Err e →
         CompatibleVersion arch (Some m1) (Some m2) = Err e)) ∧
  (states m1 VersionKey = true → states m2 VersionKey = false →
   (CompatibleVersion arch (Some m1) (Some m2) = Ok tt ↔
    ∃ major minor, ParseFormatVersion arch (Some m1) = Ok (major, minor)) ∧
   (∀ e, ParseFormatVersion arch (Some m1) = Err e →
         CompatibleVersion arch (Some m1) (Some m2) = Err e)) ∧
  (states m1 VersionKey = true → states m2 VersionKey = true →
   (CompatibleVersion arch (Some m1) (Some m2) = Ok tt ↔
    ∃ major minor1 minor2,
      ParseFormatVersion arch (Some m1) = Ok (major, minor1) ∧
      ParseFormatVersion arch (Some m2) = Ok (major, minor2)) ∧
   (∀ major1 minor1 major2 minor2,
      ParseFormatVersion arch (Some m1) = Ok (major1, minor1) →
      ParseFormatVersion arch (Some m2) = Ok (major2, minor2) →
      major1 ≠ major2 →
      CompatibleVersion arch (Some m1) (Some m2) =
        Err (errorString ("major versions are incompatible; " +:+
                          fmt.d major1 +:+ "." +:+ fmt.d minor1 +:+ " and " +:+
                          fmt.d major2 +:+ "." +:+ fmt.d minor2)))).
Proof.
  rewrite CompatibleVersion_unfold. split_and!.
  - by intros -> ->.
  - intros -> ->. apply validate_only.
  - intros -> ->. apply validate_only.
  - intros -> ->. split.
    + destruct (ParseFormatVersion arch (Some m1)) as [[major1 minor1]|e1|msg1]; simpl.
      2,3: split; [done|]; by intros (? & ? & ? & ? & ?).
      destruct (ParseFormatVersion arch (Some m2)) as [[major2 minor2]|e2|msg2]; simpl.
      2,3: split; [done|]; by intros (? & ? & ? & ? & ?).
      destruct (Z.eqb_spec major1 major2) as [->|Hne]; simpl.
      * split; [|done]. intros _. by exists major2, minor1, minor2.
      * split; [done|]. intros (? & ? & ? & ? & ?). congruence.
    + intros major1 minor1 major2 minor2 -> -> Hne. simpl.
      by destruct (Z.eqb_spec major1 major2).
Qed.

(** C1 as stated fails on a key that is there and bound to nil: the first
    file has the key and its version does not parse, the second has no
    key, and the check succeeds. *)
Lemma CompatibleVersion_nil_key :
  is_Some (({[ VersionKey := VNil ]} : gmap string value) !! VersionKey) ∧
  (∅ : gmap string value) !! VersionKey = None ∧
  ParseFormatVersion GOARCH64 (Some {[ VersionKey := VNil ]}) = Err errFormatVersion ∧
  CompatibleVersion GOARCH64 (Some {[ VersionKey := VNil ]}) (Some ∅) = Ok tt.
Proof. split_and!; [by eexists | done | done | done]. Qed.

(** ** Compatibility of two files *)

(** C9. For two non-nil files, [CompatibleFile] gives the error of the
    transform check, whatever the version check would say, and otherwise
    the error of the version check; either one is wrapped, its message
    prefixed with "files are incompatible; ". It succeeds iff both
    checks succeed. *)
Theorem CompatibleFile_first_failure arch m1 m2 :
  (∀ e, CompatibleTransform (Some m1) (Some m2) = Err e →
        CompatibleFile arch (Some m1) (Some m2) =
          Err (wrapError ("files are incompatible; " +:+ Error e) e)) ∧
  (∀ e, CompatibleTransform (Some m1) (Some m2) = Ok tt →
        CompatibleVersion arch (Some m1) (Some m2) = Err e →
        CompatibleFile arch (Some m1) (Some m2) =
          Err (wrapError ("files are incompatible; " +:+ Error e) e)) ∧
  (CompatibleFile arch (Some m1) (Some m2) = Ok tt ↔
   CompatibleTransform (Some m1) (Some m2) = Ok tt ∧
   CompatibleVersion arch (Some m1) (Some m2) = Ok tt).
Proof.
  unfold CompatibleFile. split_and!.
  - by intros e ->.
  - by intros e -> ->.
  - destruct (CompatibleTransform (Some m1) (Some m2)) as [[]|e|msg];
      [|split; [done|by intros [? _]]..].
    destruct (CompatibleVersion arch (Some m1) (Some m2)) as [[]|e|msg];
      split; try done; by intros [_ ?].
Qed.

(** ** Decimal numerals and [strconv.Atoi] *)

Ltac digit_case D :=
  exists D; split; [done|]; split; [done|];
  split; [intros a; cbn [DecimalPos.Unsigned.of_lu]; lia | lia].

Lemma digit_spec c :
  match strconv.digit c with
  | Some d =>
      ∃ D : Decimal.uint → Decimal.uint,
        (∀ u, uint_of_char c (Some u) = Some (D u)) ∧
        (∀ u a, Decimal.revapp (D u) a = Decimal.revapp u (D a)) ∧
        (∀ a, Z.of_N (DecimalPos.Unsigned.of_lu (D a))
              = (Z.of_N (DecimalPos.Unsigned.of_lu a) * 10 + d)%Z) ∧
        (0 ≤ d ≤ 9)%Z
  | None => ∀ u, uint_of_char c u = None
  end.
Proof.
  destruct c as [[|] [|] [|] [|] [|] [|] [|] [|]]; vm_compute strconv.digit;
    cbv beta iota; try (by intros [u|]);
    first [ digit_case Decimal.D0 | digit_case Decimal.D1 | digit_case Decimal.D2
          | digit_case Decimal.D3 | digit_case Decimal.D4 | digit_case Decimal.D5
          | digit_case Decimal.D6 | digit_case Decimal.D7 | digit_case Decimal.D8
          | digit_case Decimal.D9 ].
Qed.

Lemma digits_lu s a :
  strconv.digits (Z.of_N (DecimalPos.Unsigned.of_lu a)) s =
    (λ u, Z.of_N (DecimalPos.Unsigned.of_lu (Decimal.revapp u a)))
      <$> NilEmpty.uint_of_string s.
Proof.
  revert a. induction s as [|c s IH]; intros a; [done|].
  cbn [NilEmpty.uint_of_string strconv.digits].
  pose proof (digit_spec c) as Hc.
  destruct (strconv.digit c) as [d|].
  - destruct Hc as (D & HD & Hrev & Hval & _).
    rewrite <- Hval, IH.
    destruct (NilEmpty.uint_of_string s) as [u|].
    + rewrite HD. simpl. by rewrite Hrev.
    + by destruct c as [[|] [|] [|] [|] [|] [|] [|] [|]].
  - by rewrite Hc.
Qed.

Lemma digits_numeral s :
  strconv.digits 0 s = Z.of_uint <$> NilEmpty.uint_of_string s.
Proof.
  change (strconv.digits 0 s)
    with (strconv.digits (Z.of_N (DecimalPos.Unsigned.of_lu Decimal.Nil)) s).
  rewrite (digits_lu s Decimal.Nil).
  destruct (NilEmpty.uint_of_string s) as [u|]; simpl; [|done].
  unfold Z.of_uint. by rewrite DecimalPos.Unsigned.of_uint_alt.
Qed.

Lemma Atoi_numeral arch s :
  strconv.Atoi arch s =
    n ← numeral (unsign s);
    let z := (if match s with String c _ => Ascii.eqb c "-" | _ => false end
              then - n else n)%Z in
    if (strconv.minInt arch <=? z)%Z && (z <=? strconv.maxInt arch)%Z then Some z else None.
Proof.
  destruct s as [|c rest]; [done|].
  unfold strconv.Atoi, unsign.
  destruct (Ascii.eqb c "-" || Ascii.eqb c "+") eqn:Hsign.
  - destruct rest as [|c' rest']; [done|].
    rewrite digits_numeral. unfold numeral.
    by destruct (NilEmpty.uint_of_string (String c' rest')).
  - rewrite digits_numeral. unfold numeral.
    by destruct (NilEmpty.uint_of_string (String c rest)).
Qed.

Lemma uint_of_string_digits s u :
  NilEmpty.uint_of_string s = Some u →
  Forall (λ c, is_Some (strconv.digit c)) (list_ascii_of_string s).
Proof.
  revert u. induction s as [|c s IH]; intros u; simpl; [by constructor|].
  intros H. pose proof (digit_spec c) as Hc.
  destruct (strconv.digit c) as [d|] eqn:Ed.
  - constructor; [by rewrite Ed|].
    destruct (NilEmpty.uint_of_string s) as [u'|]; [by apply (IH u')|].
    by destruct c as [[|] [|] [|] [|] [|] [|] [|] [|]].
  - by rewrite Hc in H.
Qed.

Lemma numeral_digits s n :
  numeral s = Some n →
  s ≠ ""%string ∧ (0 ≤ n)%Z ∧
  Forall (λ c, is_Some (strconv.digit c)) (list_ascii_of_string s).
Proof.
  unfold numeral. destruct s as [|c s]; [done|].
  destruct (NilEmpty.uint_of_string (String c s)) as [u|] eqn:E; [|done].
  intros [= <-]. split_and!; [done| |by eapply uint_of_string_digits].
  unfold Z.of_uint. lia.
Qed.

Lemma numeral_no_digit s c :
  c ∈ list_ascii_of_string s → strconv.digit c = None → numeral s = None.
Proof.
  intros Hin Hc. destruct (numeral s) as [n|] eqn:E; [|done].
  apply numeral_digits in E as (_ & _ & Hall).
  rewrite Forall_forall in Hall. apply Hall in Hin. rewrite Hc in Hin.
  by destruct Hin.
Qed.

Lemma numeral_unsign s n : numeral s = Some n → unsign s = s.
Proof.
  intros H. apply numeral_digits in H as (Hne & _ & Hall).
  destruct s as [|c s]; [done|]. simpl in *.
  apply Forall_cons in Hall as [[d Hd] _].
  destruct (Ascii.eqb_spec c "-") as [->|_]; [done|].
  by destruct (Ascii.eqb_spec c "+") as [->|_].
Qed.

Lemma numeral_first_char c s n :
  numeral (String c s) = Some n → Ascii.eqb c "-" = false.
Proof.
  intros H. apply numeral_digits in H as (_ & _ & Hall). simpl in Hall.
  apply Forall_cons in Hall as [[d Hd] _].
  by destruct (Ascii.eqb_spec c "-") as [->|_].
Qed.

(** [Atoi] on a numeral without a sign. *)
Lemma Atoi_unsigned arch s n :
  numeral s = Some n →
  strconv.Atoi arch s = if (n <=? strconv.maxInt arch)%Z then Some n else None.
Proof.
  intros H. rewrite Atoi_numeral, (numeral_unsign s n H), H. simpl.
  destruct (numeral_digits s n H) as (Hne & Hpos & _).
  destruct s as [|c s]; [done|]. rewrite (numeral_first_char c s n H).
  assert ((strconv.minInt arch <=? n)%Z = true) as ->; [|done].
  apply Z.leb_le. unfold strconv.minInt. destruct arch; simpl; lia.
Qed.


(** ** [strings.Split] *)

Lemma Split_no_sep s sep :
  sep ∉ list_ascii_of_string s → strings.Split s sep = [s].
Proof.
  induction s as [|c s IH]; simpl; [done|].
  intros H. apply not_elem_of_cons in H as [Hne H].
  destruct (Ascii.eqb_spec c sep) as [->|_]; [done|]. by rewrite IH.
Qed.

Lemma Split_app_sep s1 s2 sep :
  sep ∉ list_ascii_of_string s1 →
  strings.Split (s1 +:+ String sep s2) sep = s1 :: strings.Split s2 sep.
Proof.
  induction s1 as [|c s1 IH]; simpl.
  - intros _. by rewrite Ascii.eqb_refl.
  - intros H. apply not_elem_of_cons in H as [Hne H].
    destruct (Ascii.eqb_spec c sep) as [->|_]; [done|]. by rewrite IH.
Qed.


Lemma numeral_no_sep s n : numeral s = Some n → "."%char ∉ list_ascii_of_string s.
Proof.
  intros H Hin. by rewrite (numeral_no_digit s "." Hin) in H.
Qed.


(** ** What [ParseFormatVersion] rejects and accepts *)





(** C4, as the code has it. When the [_format_version] of a file is a
    decimal numeral "M", or two of them "M.m", and the numbers fit [int],
    [ParseFormatVersion] returns (M, 0), respectively (M, m); when one of
    the numerals is too large for [int] it returns the format error;
    whatever the file, it returns the format error when the key is
    missing or bound to something that is not a string. *)
Theorem ParseFormatVersion_accepts arch data :
  (∀ sM M,
     index data VersionKey = VStr sM → numeral sM = Some M →
     (M ≤ strconv.maxInt arch)%Z →
     ParseFormatVersion arch data = Ok (M, 0%Z)) ∧
  (∀ sM sm M m,
     index data VersionKey = VStr (sM +:+ "." +:+ sm) →
     numeral sM = Some M → numeral sm = Some m →
     (M ≤ strconv.maxInt arch)%Z → (m ≤ strconv.maxInt arch)%Z →
     ParseFormatVersion arch data = Ok (M, m)) ∧
  (∀ sM M,
     index data VersionKey = VStr sM → numeral sM = Some M →
     (strconv.maxInt arch < M)%Z →
     ParseFormatVersion arch data = Err errFormatVersion) ∧
  (∀ sM sm M m,
     index data VersionKey = VStr (sM +:+ "." +:+ sm) →
     numeral sM = Some M → numeral sm = Some m →
     (strconv.maxInt arch < M)%Z ∨ (strconv.maxInt arch < m)%Z →
     ParseFormatVersion arch data = Err errFormatVersion) ∧
  ((∀ v, index data VersionKey ≠ VStr v) →
   ParseFormatVersion arch data = Err errFormatVersion).
Proof.
  split_and!.
  - intros sM M Hv HM Hle. rewrite (ParseFormatVersion_string arch data sM Hv).
    rewrite (Split_no_sep sM "." (numeral_no_sep sM M HM)). simpl.
    rewrite (Atoi_unsigned arch sM M HM).
    by destruct (Z.leb_spec M (strconv.maxInt arch)); [|lia].
  - intros sM sm M m Hv HM Hm HleM Hlem.
    rewrite (ParseFormatVersion_string arch data _ Hv).
    change ("." +:+ sm)%string with (String "." sm).
    rewrite (Split_app_sep sM sm "." (numeral_no_sep sM M HM)).
    rewrite (Split_no_sep sm "." (numeral_no_sep sm m Hm)). simpl.
    rewrite (Atoi_unsigned arch sM M HM), (Atoi_unsigned arch sm m Hm).
    destruct (Z.leb_spec M (strconv.maxInt arch)); [|lia].
    by destruct (Z.leb_spec m (strconv.maxInt arch)); [|lia].
  - intros sM M Hv HM Hgt. rewrite (ParseFormatVersion_string arch data sM Hv).
    rewrite (Split_no_sep sM "." (numeral_no_sep sM M HM)). simpl.
    rewrite (Atoi_unsigned arch sM M HM).
    by destruct (Z.leb_spec M (strconv.maxInt arch)); [lia|].
  - intros sM sm M m Hv HM Hm Hgt.
    rewrite (ParseFormatVersion_string arch data _ Hv).
    change ("." +:+ sm)%string with (String "." sm).
    rewrite (Split_app_sep sM sm "." (numeral_no_sep sM M HM)).
    rewrite (Split_no_sep sm "." (numeral_no_sep sm m Hm)). simpl.
    rewrite (Atoi_unsigned arch sM M HM), (Atoi_unsigned arch sm m Hm).
    destruct (Z.leb_spec M (strconv.maxInt arch)); [|done].
    by destruct (Z.leb_spec m (strconv.maxInt arch)); [lia|].
  - apply ParseFormatVersion_not_string.
Qed.

Lemma ParseFormatVersion_accepts_witness :
  ParseFormatVersion GOARCH64 (Some {[ VersionKey := VStr "3.10" ]}) = Ok (3%Z, 10%Z) ∧
  ParseFormatVersion GOARCH64 (Some {[ VersionKey := VStr "3.9223372036854775808" ]})
    = Err errFormatVersion.
Proof.
  split.
  - apply (proj1 (proj2 (ParseFormatVersion_accepts GOARCH64
                           (Some {[ VersionKey := VStr "3.10" ]})))
             "3"%string "10"%string); by vm_compute.
  - apply (proj1 (proj2 (proj2 (proj2 (ParseFormatVersion_accepts GOARCH64
                           (Some {[ VersionKey := VStr "3.9223372036854775808" ]})))))
             "3"%string "9223372036854775808"%string 3%Z 9223372036854775808%Z);
      [by vm_compute | by vm_compute | by vm_compute | right; by vm_compute].
Defined.

(** C4 as stated fails on a numeral that does not fit [int]: 2^63 is a
    string of digits and is refused on either word size. *)
Lemma ParseFormatVersion_int_overflow :
  numeral "9223372036854775808" = Some 9223372036854775808%Z ∧
  ParseFormatVersion GOARCH64 (Some {[ VersionKey := VStr "9223372036854775808" ]})
    = Err errFormatVersion ∧
  ParseFormatVersion GOARCH32 (Some {[ VersionKey := VStr "9223372036854775808" ]})
    = Err errFormatVersion.
Proof. by split_and!. Qed.

(** ** The store: what a value denotes *)

Lemma denote_fuel_mono n (σ1 σ2 : store) v t :
  denote_fuel n σ1 v = Some t → σ1 ⊆ σ2 → denote_fuel n σ2 v = Some t.
Proof.
  revert σ1 σ2 v t. induction n as [|n IH]; intros σ1 σ2 v t H Hsub;
    destruct v as [| | | |[l|]|[l|]]; simpl in *; try done.
  - destruct (σ1 !! l) as [[vs|kvs]|] eqn:El; try done.
    rewrite (lookup_weaken _ _ _ _ El Hsub).
    destruct (mapM (denote_fuel n (delete l σ1)) vs) as [ts|] eqn:Ets; simplify_eq/=.
    apply mapM_Some in Ets.
    assert (mapM (denote_fuel n (delete l σ2)) vs = Some ts) as ->; [|done].
    apply mapM_Some. eapply Forall2_impl; [done|]. intros v' t' Hv'. simpl in Hv'.
    eapply IH; [exact Hv'|]. by apply delete_mono.
  - destruct (σ1 !! l) as [[vs|kvs]|] eqn:El; try done.
    rewrite (lookup_weaken _ _ _ _ El Hsub).
    destruct (mapM (denote_fuel n (delete l σ1)) kvs.*2) as [ts|] eqn:Ets; simplify_eq/=.
    apply mapM_Some in Ets.
    assert (mapM (denote_fuel n (delete l σ2)) kvs.*2 = Some ts) as ->; [|done].
    apply mapM_Some. eapply Forall2_impl; [done|]. intros v' t' Hv'. simpl in Hv'.
    eapply IH; [exact Hv'|]. by apply delete_mono.
Qed.

Lemma size_delete_lt (σ : store) l o m :
  σ !! l = Some o → size σ < S m → size (delete l σ) < m.
Proof.
  intros El Hm. rewrite map_size_delete, El.
  assert (size σ ≠ 0); [|lia].
  intros H0. apply map_size_empty_inv in H0. by rewrite H0 in El.
Qed.

(** Fuel above the size of the store is enough. *)
Lemma denote_fuel_enough n m (σ : store) v t :
  denote_fuel n σ v = Some t → size σ < m → denote_fuel m σ v = Some t.
Proof.
  revert m σ v t. induction n as [|n IH]; intros m σ v t H Hm;
    destruct v as [| | | |[l|]|[l|]]; destruct m as [|m]; simpl in *; try done; try lia.
  - destruct (σ !! l) as [[vs|kvs]|] eqn:El; try done.
    destruct (mapM (denote_fuel n (delete l σ)) vs) as [ts|] eqn:Ets; simplify_eq/=.
    apply mapM_Some in Ets.
    assert (mapM (denote_fuel m (delete l σ)) vs = Some ts) as ->; [|done].
    apply mapM_Some. eapply Forall2_impl; [done|]. intros v' t' Hv'. simpl in Hv'.
    eapply IH; [exact Hv'|]. by eapply size_delete_lt.
  - destruct (σ !! l) as [[vs|kvs]|] eqn:El; try done.
    destruct (mapM (denote_fuel n (delete l σ)) kvs.*2) as [ts|] eqn:Ets; simplify_eq/=.
    apply mapM_Some in Ets.
    assert (mapM (denote_fuel m (delete l σ)) kvs.*2 = Some ts) as ->; [|done].
    apply mapM_Some. eapply Forall2_impl; [done|]. intros v' t' Hv'. simpl in Hv'.
    eapply IH; [exact Hv'|]. by eapply size_delete_lt.
Qed.

Lemma denotes_denote (σ : store) v t : denotes σ v t ↔ denote σ v = Some t.
Proof.
  split.
  - intros [n H]. eapply denote_fuel_enough; [done|]. lia.
  - intros H. by eexists.
Qed.

Lemma denotes_mono (σ1 σ2 : store) v t : denotes σ1 v t → σ1 ⊆ σ2 → denotes σ2 v t.
Proof. intros [n H] Hsub. exists n. by eapply denote_fuel_mono. Qed.

Lemma denotes_all (τ : store) vs ts :
  Forall2 (denotes τ) vs ts →
  mapM (denote_fuel (S (size τ)) τ) vs = Some ts.
Proof.
  intros H. apply mapM_Some. eapply Forall2_impl; [done|].
  intros v t Hv. by apply denotes_denote.
Qed.

(** ** Deep copies *)

Lemma carries_weaken_new (old new1 new2 τ : store) :
  new1 ⊆ new2 → carries old new2 τ → carries old new1 τ.
Proof. intros Hsub H l o Hl Hold. eapply H; [|done]. by eapply lookup_weaken. Qed.

Lemma carries_strengthen_old (old1 old2 new τ : store) :
  old1 ⊆ old2 → carries old1 new τ → carries old2 new τ.
Proof.
  intros Hsub H l o Hl Hold. apply H; [done|].
  destruct (old1 !! l) as [o'|] eqn:E; [|done].
  by rewrite (lookup_weaken _ _ _ _ E Hsub) in Hold.
Qed.

Lemma fresh_lookup (σ : store) : σ !! fresh (dom σ) = None.
Proof. apply not_elem_of_dom. apply is_fresh. Qed.

Lemma fresh_lookup_sub (σ σ' : store) : σ ⊆ σ' → σ !! fresh (dom σ') = None.
Proof.
  intros Hsub. destruct (σ !! fresh (dom σ')) as [o|] eqn:E; [|done].
  pose proof (lookup_weaken _ _ _ _ E Hsub) as E'. by rewrite fresh_lookup in E'.
Qed.

Lemma fresh_subseteq (σ : store) o : σ ⊆ <[fresh (dom σ) := o]> σ.
Proof. apply insert_subseteq, fresh_lookup. Qed.

Lemma denote_fuel_arr n (σ : store) l vs :
  σ !! l = Some (OArr vs) →
  denote_fuel (S n) σ (VArr (Some l)) = TArr <$> mapM (denote_fuel n (delete l σ)) vs.
Proof. intros H. simpl. by rewrite H. Qed.

Lemma denote_fuel_map n (σ : store) l kvs :
  σ !! l = Some (OMap kvs) →
  denote_fuel (S n) σ (VMap (Some l)) =
    ts ← mapM (denote_fuel n (delete l σ)) kvs.*2; Some (TMap (zip kvs.*1 ts)).
Proof. intros H. simpl. by rewrite H. Qed.

Lemma copy_list_copied (c : value → store → option (value * store))
    (d : value → option tree) vs ts (dst : store) :
  (∀ v t dst', d v = Some t → ∃ r, c v dst' = Some r ∧ copied dst' t r) →
  mapM d vs = Some ts →
  ∃ vs' dst', jsonbasics.copy_list c vs dst = Some (vs', dst') ∧
    dst ⊆ dst' ∧
    ∀ τ : store, carries dst dst' τ → Forall2 (denotes τ) vs' ts.
Proof.
  intros Hc. revert ts dst. induction vs as [|v vs IH]; intros ts dst Hd.
  - apply mapM_Some in Hd. apply Forall2_nil_inv_l in Hd as ->.
    exists [], dst. split_and!; [done|done|]. intros τ _. constructor.
  - apply mapM_Some in Hd. apply Forall2_cons_inv_l in Hd as (t & ts' & Ht & Hts & ->).
    apply mapM_Some in Hts.
    destruct (Hc v t dst Ht) as ([v' dst1] & Ecv & Hsub1 & Hden1 & _).
    destruct (IH ts' dst1 Hts) as (vs' & dst2 & Ecl & Hsub2 & Hden2).
    simpl in *. exists (v' :: vs'), dst2. rewrite Ecv, Ecl. split_and!; [done|by etrans|].
    intros τ Hτ. constructor.
    + apply Hden1. by eapply carries_weaken_new.
    + apply Hden2. by eapply carries_strengthen_old.
Qed.

Lemma copy_fuel_copied n (src : store) v t (dst : store) :
  denote_fuel n src v = Some t →
  ∃ r, jsonbasics.copy_fuel n src v dst = Some r ∧ copied dst t r.
Proof.
  revert src v t dst. induction n as [|n IH]; intros src v t dst H;
    destruct v as [| | | |[l|]|[l|]]; simpl in *; try done.
  all: try (eexists; split; [reflexivity|]; simplify_eq; split_and!; simpl;
              [done | intros τ _; by exists 0 | intros l' [?|?]; congruence]).
  - destruct (src !! l) as [[vs|kvs]|] eqn:El; try done.
    destruct (mapM (denote_fuel n (delete l src)) vs) as [ts|] eqn:Ets; simplify_eq/=.
    destruct (copy_list_copied (jsonbasics.copy_fuel n (delete l src))
                (denote_fuel n (delete l src)) vs ts dst
                (λ v t dst', IH (delete l src) v t dst') Ets)
      as (vs' & dst' & -> & Hsub & Hden).
    eexists; split; [done|]. split_and!; simpl.
    + etrans; [done|]. apply fresh_subseteq.
    + intros τ Hτ. exists (S (S (size (delete (fresh (dom dst')) τ)))).
      rewrite (denote_fuel_arr _ τ _ vs'); cycle 1.
      { apply Hτ; [apply lookup_insert_eq | by apply fresh_lookup_sub]. }
      rewrite (denotes_all _ vs' ts); [done|]. apply Hden.
      intros l' o Hl' Hold.
      assert (l' ≠ fresh (dom dst')) as Hne.
      { intros ->. by rewrite fresh_lookup in Hl'. }
      rewrite lookup_delete_ne by done. apply Hτ; [|done].
      by rewrite lookup_insert_ne.
    + intros l' [[= <-]|?]; [|done].
      by apply fresh_lookup_sub.
  - destruct (src !! l) as [[vs|kvs]|] eqn:El; try done.
    destruct (mapM (denote_fuel n (delete l src)) kvs.*2) as [ts|] eqn:Ets; simplify_eq/=.
    destruct (copy_list_copied (jsonbasics.copy_fuel n (delete l src))
                (denote_fuel n (delete l src)) kvs.*2 ts dst
                (λ v t dst', IH (delete l src) v t dst') Ets)
      as (vs' & dst' & -> & Hsub & Hden).
    eexists; split; [done|]. split_and!; simpl.
    + etrans; [done|]. apply fresh_subseteq.
    + intros τ Hτ. exists (S (S (size (delete (fresh (dom dst')) τ)))).
      rewrite (denote_fuel_map _ τ _ (zip kvs.*1 vs')); cycle 1.
      { apply Hτ; [apply lookup_insert_eq | by apply fresh_lookup_sub]. }
      assert (Forall2 (denotes (delete (fresh (dom dst')) τ)) vs' ts) as Hall.
      { apply Hden. intros l' o Hl' Hold.
        assert (l' ≠ fresh (dom dst')) as Hne.
        { intros ->. by rewrite fresh_lookup in Hl'. }
        rewrite lookup_delete_ne by done. apply Hτ; [|done].
        by rewrite lookup_insert_ne. }
      assert (length kvs.*1 = length vs') as Hlen.
      { apply mapM_Some in Ets. apply Forall2_length in Ets, Hall.
        rewrite !length_fmap in *. lia. }
      rewrite snd_zip by lia. rewrite fst_zip by lia.
      by rewrite (denotes_all _ vs' ts).
    + intros l' [?|[= <-]]; [done|].
      by apply fresh_lookup_sub.
Qed.

Lemma DeepCopyArray_copy (σ : store) a ts :
  denote σ (VArr a) = Some (TArr ts) →
  ∃ a' σ', jsonbasics.DeepCopyArray σ a = Some (a', σ') ∧ copy_in σ σ' a' ts.
Proof.
  intros H. unfold jsonbasics.DeepCopyArray.
  destruct (copy_fuel_copied _ σ (VArr a) (TArr ts) σ H) as ([v' σ'] & E & Hsub & Hden & Hfresh).
  rewrite E. simpl in *.
  assert (∃ a', v' = VArr a') as [a' ->].
  { destruct a as [l|]; simpl in E.
    - destruct (σ !! l) as [[vs|kvs]|]; try done.
      destruct (jsonbasics.copy_list _ vs σ) as [[]|]; simplify_eq. by eexists.
    - simplify_eq. by eexists. }
  exists a', σ'. split; [done|]. split_and!; [done| |done].
  intros l ->. apply Hfresh. by left.
Qed.

(** ** The history of a file *)

Lemma HistoryGet_empty (σ : store) filedata :
  index filedata HistoryKey = VNil →
  HistoryGet σ filedata =
    Some (Some (fresh (dom σ)), <[fresh (dom σ) := OArr []]> σ).
Proof.
  intros H. unfold HistoryGet. destruct filedata as [m|]; [|done]. by rewrite H.
Qed.

Lemma copy_in_empty (σ : store) :
  copy_in σ (<[fresh (dom σ) := OArr []]> σ) (Some (fresh (dom σ))) [].
Proof.
  split_and!.
  - apply fresh_subseteq.
  - intros l [= <-]. apply fresh_lookup.
  - intros τ Hτ. exists 1. rewrite (denote_fuel_arr _ τ _ []); [done|].
    apply Hτ; [apply lookup_insert_eq | apply fresh_lookup].
Qed.

Lemma copy_in_elements (σ σ' : store) s ts :
  copy_in σ σ' s ts → ∃ vs, elements σ' s = Some vs ∧ length vs = length ts.
Proof.
  intros (_ & _ & H). destruct (H σ') as [n Hn]; [by intros l o Hl _|].
  destruct s as [l|]; simpl in *.
  - destruct n as [|n]; [done|]. simpl in Hn.
    destruct (σ' !! l) as [[vs|kvs]|]; try done.
    destruct (mapM (denote_fuel n (delete l σ')) vs) as [ts'|] eqn:E; simplify_eq/=.
    exists vs. split; [done|]. apply mapM_Some in E. by eapply Forall2_length.
  - exists []. destruct n; by simplify_eq/=.
Qed.

Lemma denote_arr (σ : store) a t :
  denote σ (VArr a) = Some t → ∃ ts, t = TArr ts.
Proof.
  unfold denote. destruct a as [l|]; simpl; [|intros [= <-]; by eexists].
  destruct (σ !! l) as [[vs|kvs]|]; try done.
  destruct (mapM _ vs) as [ts|]; intros; simplify_eq/=. by eexists.
Qed.

Lemma HistoryGet_array (σ : store) filedata a ts :
  index filedata HistoryKey = VArr a →
  denote σ (VArr a) = Some (TArr ts) →
  ∃ s σ', HistoryGet σ filedata = Some (s, σ') ∧ copy_in σ σ' s ts.
Proof.
  intros Hv Hd. unfold HistoryGet.
  destruct filedata as [m|]; [|done]. rewrite Hv. simpl.
  by apply DeepCopyArray_copy.
Qed.

Lemma HistoryGet_wrap (σ : store) filedata v t :
  index filedata HistoryKey = v → v ≠ VNil → (∀ a, v ≠ VArr a) →
  denote σ v = Some t →
  ∃ s σ', HistoryGet σ filedata = Some (s, σ') ∧ copy_in σ σ' s [t].
Proof.
  intros Hv Hnil Harr Hd. unfold HistoryGet.
  destruct filedata as [m|]; [|done]. rewrite Hv.
  assert (isNil v = false) as -> by (by destruct v).
  assert (jsonbasics.ToArray v = Err (errors.New "not an array")) as ->.
  { destruct v; try done. by destruct (Harr a). }
  set (l := fresh (dom σ)). set (σ1 := <[l := OArr [v]]> σ).
  assert (σ ⊆ σ1) as Hsub by apply fresh_subseteq.
  assert (denote σ1 (VArr (Some l)) = Some (TArr [t])) as Hd1.
  { apply denotes_denote. exists (S (S (size σ))).
    rewrite (denote_fuel_arr _ σ1 l [v]) by apply lookup_insert_eq.
    unfold σ1. rewrite delete_insert_id by apply fresh_lookup.
    simpl. unfold denote in Hd. simpl in Hd. by rewrite Hd. }
  destruct (DeepCopyArray_copy σ1 (Some l) [t] Hd1) as (s & σ' & E & Hsub' & Hfresh & Hden).
  exists s, σ'. split; [done|]. split_and!.
  - by etrans.
  - intros l' Hl'. specialize (Hfresh l' Hl').
    destruct (σ !! l') as [o|] eqn:E'; [|done].
    by rewrite (lookup_weaken _ _ _ _ E' Hsub) in Hfresh.
  - intros τ Hτ. apply Hden. by eapply carries_strengthen_old.
Qed.

(** With a value under [_ignore] that stands for a tree, [HistoryGet]
    returns. *)
Lemma HistoryGet_total (σ : store) filedata t :
  denote σ (index filedata HistoryKey) = Some t →
  ∃ s σ' ts, HistoryGet σ filedata = Some (s, σ') ∧ copy_in σ σ' s ts.
Proof.
  intros Hd. destruct (index filedata HistoryKey) as [|b|z|str|a|mp] eqn:Hv.
  - rewrite (HistoryGet_empty σ filedata Hv). do 3 eexists. split; [done|].
    apply copy_in_empty.
  - destruct (HistoryGet_wrap σ filedata _ t Hv) as (s & σ' & ? & ?);
      [done|done|done|by eauto].
  - destruct (HistoryGet_wrap σ filedata _ t Hv) as (s & σ' & ? & ?);
      [done|done|done|by eauto].
  - destruct (HistoryGet_wrap σ filedata _ t Hv) as (s & σ' & ? & ?);
      [done|done|done|by eauto].
  - destruct (denote_arr σ a t Hd) as [ts ->].
    destruct (HistoryGet_array σ filedata a ts Hv Hd) as (s & σ' & ? & ?). by eauto.
  - destruct (HistoryGet_wrap σ filedata _ t Hv) as (s & σ' & ? & ?);
      [done|done|done|by eauto].
Qed.

(** C8, as the code has it. [HistoryGet] returns an empty sequence when
    the file is nil, has no [_ignore] key or binds it to nil; a sequence
    of one element standing for the same tree as [v] when [_ignore] holds
    a value [v] that is neither nil nor a sequence; and a sequence
    standing for the same trees when it holds a sequence. What it
    returns is a copy: no object of the store is changed, the result lives
    in new objects only, and it stands for the same trees whatever is
    written later to the objects the file refers to. *)
Theorem HistoryGet_copy (σ : store) filedata :
  (index filedata HistoryKey = VNil →
   ∃ s σ', HistoryGet σ filedata = Some (s, σ') ∧
           elements σ' s = Some [] ∧ copy_in σ σ' s []) ∧
  (∀ v t,
     index filedata HistoryKey = v → v ≠ VNil → (∀ a, v ≠ VArr a) →
     denote σ v = Some t →
     ∃ s σ', HistoryGet σ filedata = Some (s, σ') ∧ copy_in σ σ' s [t]) ∧
  (∀ a ts,
     index filedata HistoryKey = VArr a →
     denote σ (VArr a) = Some (TArr ts) →
     ∃ s σ', HistoryGet σ filedata = Some (s, σ') ∧ copy_in σ σ' s ts).
Proof.
  split_and!.
  - intros H. rewrite (HistoryGet_empty σ filedata H). do 2 eexists.
    split; [done|]. split; [|apply copy_in_empty].
    simpl. by rewrite lookup_insert_eq.
  - apply HistoryGet_wrap.
  - apply HistoryGet_array.
Qed.

Lemma HistoryGet_copy_witness :
  ∃ s σ', HistoryGet ∅ (Some {[ HistoryKey := VStr "single-string-entry" ]}) = Some (s, σ') ∧
          copy_in ∅ σ' s [TStr "single-string-entry"].
Proof.
  apply (proj1 (proj2 (HistoryGet_copy ∅ (Some {[ HistoryKey := VStr "single-string-entry" ]})))
           (VStr "single-string-entry") (TStr "single-string-entry"));
    [reflexivity | discriminate | discriminate | reflexivity].
Defined.

(** C8 as stated fails on a key bound to nil: the file has the key, nil is
    not a sequence, and the result is empty, not the sequence of nil. *)
Lemma HistoryGet_nil_key :
  is_Some (({[ HistoryKey := VNil ]} : gmap string value) !! HistoryKey) ∧
  ∃ s σ', HistoryGet ∅ (Some {[ HistoryKey := VNil ]}) = Some (s, σ') ∧
          elements σ' s = Some [].
Proof. split; [by eexists|]. by do 2 eexists. Qed.

Lemma HistorySet_clears m historyArray :
  HistorySet (Some m) historyArray = Ok (Some (delete HistoryKey m)).
Proof.
  unfold HistorySet, HistoryClear. destruct historyArray as [l|]; simpl; [|done].
  by rewrite delete_insert_eq.
Qed.

Lemma HistoryAppend_unfold (σ : store) filedata newEntry hist (σ1 : store) vs :
  HistoryGet σ filedata = Some (hist, σ1) →
  elements σ1 hist = Some vs →
  HistoryAppend σ filedata newEntry =
    Some (HistorySet filedata (Some (fresh (dom σ1))),
          <[fresh (dom σ1) := OArr (vs ++ [newEntry])]> σ1).
Proof.
  intros E Hvs. unfold HistoryAppend, append. rewrite E. simpl. by rewrite Hvs.
Qed.

(** C2. For a non-nil file: after [HistorySet] with any slice (nil or
    not) and after [HistoryClear] the file is the file before without the
    [_ignore] key; so it is after [HistoryAppend] with any entry (the
    value under [_ignore] standing for a tree), and a [HistoryGet] that
    follows returns an empty sequence. *)
Theorem History_never_kept m :
  (∀ historyArray,
     HistorySet (Some m) historyArray = Ok (Some (delete HistoryKey m))) ∧
  HistoryClear (Some m) = Some (delete HistoryKey m) ∧
  delete HistoryKey m !! HistoryKey = None ∧
  (∀ (σ : store) newEntry t,
     denote σ (index (Some m) HistoryKey) = Some t →
     ∃ σ', HistoryAppend σ (Some m) newEntry
             = Some (Ok (Some (delete HistoryKey m)), σ') ∧
           ∃ s σ'', HistoryGet σ' (Some (delete HistoryKey m)) = Some (s, σ'') ∧
                    elements σ'' s = Some []).
Proof.
  split_and!.
  - apply HistorySet_clears.
  - done.
  - apply lookup_delete_eq.
  - intros σ newEntry t Hd.
    destruct (HistoryGet_total σ (Some m) t Hd) as (hist & σ1 & ts & E & Hcopy).
    destruct (copy_in_elements _ _ _ _ Hcopy) as (vs & Hvs & _).
    rewrite (HistoryAppend_unfold σ (Some m) newEntry hist σ1 vs E Hvs).
    rewrite HistorySet_clears. eexists. split; [done|].
    rewrite HistoryGet_empty; [|by simpl; rewrite lookup_delete_eq].
    do 2 eexists. split; [done|]. simpl. by rewrite lookup_insert_eq.
Qed.

Lemma History_never_kept_witness :
  ∃ σ', HistoryAppend ∅ (Some {[ HistoryKey := VStr "old" ]}) (VStr "new")
          = Some (Ok (Some (delete HistoryKey {[ HistoryKey := VStr "old" ]})), σ') ∧
        ∃ s σ'', HistoryGet σ' (Some (delete HistoryKey {[ HistoryKey := VStr "old" ]}))
                   = Some (s, σ'') ∧
                 elements σ'' s = Some [].
Proof.
  apply (proj2 (proj2 (proj2 (History_never_kept {[ HistoryKey := VStr "old" ]})))
           ∅ (VStr "new") (TStr "old")).
  reflexivity.
Defined.

(** ** Further properties of the package *)

(** *** Printing and parsing versions *)

Lemma string_of_uint_nonempty d :
  d ≠ Decimal.Nil → NilEmpty.string_of_uint d ≠ ""%string.
Proof. by destruct d. Qed.

Lemma numeral_string_of_uint d :
  d ≠ Decimal.Nil →
  numeral (NilZero.string_of_uint d) = Some (Z.of_uint d).
Proof.
  intros Hnil.
  assert (NilZero.string_of_uint d = NilEmpty.string_of_uint d) as -> by (by destruct d).
  pose proof (string_of_uint_nonempty d Hnil) as Hne. unfold numeral.
  destruct (NilEmpty.string_of_uint d) eqn:Es; [done|].
  by rewrite <- Es, NilEmpty.usu.
Qed.

Lemma numeral_fmt_d z : (0 ≤ z)%Z → numeral (fmt.d z) = Some z.
Proof.
  intros Hz. destruct z as [|p|p]; [done| |lia].
  unfold fmt.d. simpl.
  rewrite numeral_string_of_uint by apply DecimalPos.Unsigned.to_uint_nonnil.
  unfold Z.of_uint. by rewrite DecimalPos.Unsigned.of_to.
Qed.

Lemma Atoi_fmt_d arch z :
  (strconv.minInt arch ≤ z ≤ strconv.maxInt arch)%Z →
  strconv.Atoi arch (fmt.d z) = Some z.
Proof.
  intros [Hmin Hmax]. destruct (Z.neg_nonneg_cases z) as [Hneg|Hpos].
  - destruct z as [|p|p]; try lia.
    change (fmt.d (Z.neg p)) with (String "-" (fmt.d (Z.pos p))).
    rewrite Atoi_numeral. simpl unsign. rewrite numeral_fmt_d by lia. simpl.
    change (- Z.pos p)%Z with (Z.neg p).
    destruct (Z.leb_spec (strconv.minInt arch) (Z.neg p)); [|lia].
    by destruct (Z.leb_spec (Z.neg p) (strconv.maxInt arch)); [|lia].
  - rewrite (Atoi_unsigned arch _ z (numeral_fmt_d z Hpos)).
    by destruct (Z.leb_spec z (strconv.maxInt arch)); [|lia].
Qed.

Lemma fmt_d_no_sep z : "."%char ∉ list_ascii_of_string (fmt.d z).
Proof.
  destruct (Z.neg_nonneg_cases z) as [Hneg|Hpos].
  - destruct z as [|p|p]; try lia.
    change (fmt.d (Z.neg p)) with (String "-" (fmt.d (Z.pos p))). simpl.
    apply not_elem_of_cons. split; [done|].
    apply (numeral_no_sep _ (Z.pos p)). by apply numeral_fmt_d.
  - apply (numeral_no_sep _ z). by apply numeral_fmt_d.
Qed.

(** X1. Printing two [int]s as "%d.%d" (the way the error on a major
    mismatch prints versions) and parsing the result gives the two numbers
    back; a single "%d" parses to that number with minor 0. Negative
    numbers are included. *)
Theorem ParseFormatVersion_roundtrip arch data major minor :
  (strconv.minInt arch ≤ major ≤ strconv.maxInt arch)%Z →
  (strconv.minInt arch ≤ minor ≤ strconv.maxInt arch)%Z →
  (index data VersionKey = VStr (fmt.d major +:+ "." +:+ fmt.d minor) →
   ParseFormatVersion arch data = Ok (major, minor)) ∧
  (index data VersionKey = VStr (fmt.d major) →
   ParseFormatVersion arch data = Ok (major, 0%Z)).
Proof.
  intros HM Hm. split; intros Hv; rewrite (ParseFormatVersion_string arch data _ Hv).
  - change ("." +:+ fmt.d minor)%string with (String "." (fmt.d minor)).
    rewrite (Split_app_sep _ _ "." (fmt_d_no_sep major)).
    rewrite (Split_no_sep _ "." (fmt_d_no_sep minor)). simpl.
    by rewrite !Atoi_fmt_d.
  - rewrite (Split_no_sep _ "." (fmt_d_no_sep major)). simpl.
    by rewrite Atoi_fmt_d.
Qed.

Lemma ParseFormatVersion_roundtrip_witness :
  ParseFormatVersion GOARCH64 (Some {[ VersionKey := VStr "3.-10" ]}) = Ok (3%Z, (-10)%Z).
Proof.
  apply (proj1 (ParseFormatVersion_roundtrip GOARCH64
                  (Some {[ VersionKey := VStr "3.-10" ]}) 3 (-10)
                  ltac:(by vm_compute) ltac:(by vm_compute))).
  reflexivity.
Defined.

(** X2. [ParseFormatVersion] never panics, whatever the file (nil
    included): [strings.Split] never returns an empty slice, so [elem[0]]
    is always there. It returns a pair or the one format error. *)
Theorem ParseFormatVersion_no_panic arch data :
  (∀ msg, ParseFormatVersion arch data ≠ Panic msg) ∧
  (∀ e, ParseFormatVersion arch data = Err e → e = errFormatVersion) ∧
  ParseFormatVersion arch None = Err errFormatVersion.
Proof.
  split_and!; [| |done].
  - intros msg H. destruct (ParseFormatVersion_total arch data) as [(M & m & E)|E];
      congruence.
  - intros e H. destruct (ParseFormatVersion_total arch data) as [(M & m & E)|E];
      congruence.
Qed.

(** *** Compatibility as a relation between files *)

Lemma CompatibleTransform_Ok m1 m2 :
  CompatibleTransform (Some m1) (Some m2) = Ok tt ↔
  ∃ b, transformOf m1 = Some b ∧ transformOf m2 = Some b.
Proof.
  destruct (transformOf m1) as [b1|] eqn:H1.
  - destruct (transformOf m2) as [b2|] eqn:H2.
    + rewrite (CompatibleTransform_resolved m1 m2 b1 b2 H1 H2).
      destruct b1, b2; simpl; split; intros H; try done; eauto.
      all: destruct H as (c & ? & ?); congruence.
    + rewrite (CompatibleTransform_unresolved_2 m1 m2 b1 H1 H2).
      destruct (read_flag_unresolved m2 H2) as (_ & e & -> & Hne). simpl.
      split; [congruence|]. intros (c & ? & ?); congruence.
  - rewrite (CompatibleTransform_unresolved_1 m1 m2 H1).
    destruct (read_flag_unresolved m1 H1) as (_ & e & -> & Hne). simpl.
    split; [congruence|]. intros (c & ? & ?); congruence.
Qed.

Lemma CompatibleTransform_not_panic m1 m2 msg :
  CompatibleTransform (Some m1) (Some m2) ≠ Panic msg.
Proof.
  destruct (transformOf m1) as [b1|] eqn:H1.
  - destruct (transformOf m2) as [b2|] eqn:H2.
    + rewrite (CompatibleTransform_resolved m1 m2 b1 b2 H1 H2).
      by destruct (negb (Bool.eqb b1 b2)).
    + rewrite (CompatibleTransform_unresolved_2 m1 m2 b1 H1 H2).
      by destruct (read_flag_unresolved m2 H2) as (_ & e & -> & Hne).
  - rewrite (CompatibleTransform_unresolved_1 m1 m2 H1).
    by destruct (read_flag_unresolved m1 H1) as (_ & e & -> & Hne).
Qed.

Lemma CompatibleVersion_Ok arch m1 m2 :
  CompatibleVersion arch (Some m1) (Some m2) = Ok tt ↔
  (states m1 VersionKey = true →
   ∃ major minor, ParseFormatVersion arch (Some m1) = Ok (major, minor)) ∧
  (states m2 VersionKey = true →
   ∃ major minor, ParseFormatVersion arch (Some m2) = Ok (major, minor)) ∧
  (∀ major1 minor1 major2 minor2,
     states m1 VersionKey = true → states m2 VersionKey = true →
     ParseFormatVersion arch (Some m1) = Ok (major1, minor1) →
     ParseFormatVersion arch (Some m2) = Ok (major2, minor2) →
     major1 = major2).
Proof.
  rewrite CompatibleVersion_unfold.
  destruct (states m1 VersionKey), (states m2 VersionKey).
  - destruct (ParseFormatVersion arch (Some m1)) as [[major1 minor1]|e1|msg1]; simpl.
    2,3: split; [done|]; intros ((? & ? & ?) & _); [done|done].
    destruct (ParseFormatVersion arch (Some m2)) as [[major2 minor2]|e2|msg2]; simpl.
    2,3: split; [done|]; intros (_ & (? & ? & ?) & _); [done|done].
    destruct (Z.eqb_spec major1 major2) as [->|Hne]; simpl.
    + split; [|done]. intros _. split_and!; eauto. intros; congruence.
    + split; [done|]. intros (_ & _ & H). destruct Hne. by eapply H.
  - destruct (ParseFormatVersion arch (Some m1)) as [[major1 minor1]|e1|msg1]; simpl.
    2,3: split; [done|]; intros ((? & ? & ?) & _); [done|done].
    split; [|done]. intros _. split_and!; eauto; done.
  - destruct (ParseFormatVersion arch (Some m2)) as [[major2 minor2]|e2|msg2]; simpl.
    2,3: split; [done|]; intros (_ & (? & ? & ?) & _); [done|done].
    split; [|done]. intros _. split_and!; eauto; done.
  - split; [|done]. intros _. split_and!; done.
Qed.

Lemma CompatibleFile_Ok arch data1 data2 :
  CompatibleFile arch data1 data2 = Ok tt ↔
  CompatibleTransform data1 data2 = Ok tt ∧ CompatibleVersion arch data1 data2 = Ok tt.
Proof.
  unfold CompatibleFile.
  destruct (CompatibleTransform data1 data2) as [[]|e|msg];
    [|split; [done|by intros [? _]]..].
  destruct (CompatibleVersion arch data1 data2) as [[]|e|msg];
    split; try done; by intros [_ ?].
Qed.

(** X3. Compatibility does not depend on the order of the two files:
    [CompatibleFile] succeeds on (data1, data2) iff it succeeds on
    (data2, data1), nil files included (it succeeds on neither order). *)
Theorem CompatibleFile_symmetric arch data1 data2 :
  CompatibleFile arch data1 data2 = Ok tt ↔ CompatibleFile arch data2 data1 = Ok tt.
Proof.
  destruct data1 as [m1|], data2 as [m2|]; try done.
  rewrite !CompatibleFile_Ok, !CompatibleTransform_Ok, !CompatibleVersion_Ok.
  split.
  - intros ((b & Hb1 & Hb2) & H1 & H2 & Hmaj). split; [by eauto|].
    split_and!; [done|done|]. intros. symmetry. by eapply Hmaj.
  - intros ((b & Hb1 & Hb2) & H1 & H2 & Hmaj). split; [by eauto|].
    split_and!; [done|done|]. intros. symmetry. by eapply Hmaj.
Qed.

(** X4. The three checks panic exactly on a nil file, [data1] being
    tested before [data2]; [CompatibleFile] panics with the message of
    [CompatibleTransform], which it calls first. On two non-nil files none
    of them panics. *)
Theorem Compatible_panics arch data1 data2 :
  (data1 = None →
   CompatibleTransform data1 data2 = Panic "expected 'data1' to be non-nil" ∧
   CompatibleVersion arch data1 data2 = Panic "expected 'data1' to be non-nil" ∧
   CompatibleFile arch data1 data2 = Panic "expected 'data1' to be non-nil") ∧
  (data1 ≠ None → data2 = None →
   CompatibleTransform data1 data2 = Panic "expected 'data2' to be non-nil" ∧
   CompatibleVersion arch data1 data2 = Panic "expected 'data2' to be non-nil" ∧
   CompatibleFile arch data1 data2 = Panic "expected 'data2' to be non-nil") ∧
  (data1 ≠ None → data2 ≠ None →
   ∀ msg, CompatibleTransform data1 data2 ≠ Panic msg ∧
          CompatibleVersion arch data1 data2 ≠ Panic msg ∧
          CompatibleFile arch data1 data2 ≠ Panic msg).
Proof.
  split_and!.
  - by intros ->.
  - intros H1 ->. by destruct data1.
  - intros H1 H2 msg. destruct data1 as [m1|], data2 as [m2|]; try done.
    assert (CompatibleVersion arch (Some m1) (Some m2) ≠ Panic msg) as HV.
    { rewrite CompatibleVersion_unfold.
      destruct (ParseFormatVersion_total arch (Some m1)) as [(M1 & n1 & E1)|E1];
        destruct (ParseFormatVersion_total arch (Some m2)) as [(M2 & n2 & E2)|E2];
        rewrite E1, E2;
        destruct (states m1 VersionKey), (states m2 VersionKey); simpl; try done.
      by destruct (negb (M1 =? M2)%Z). }
    split_and!; [apply CompatibleTransform_not_panic | done |].
    unfold CompatibleFile.
    pose proof (CompatibleTransform_not_panic m1 m2) as HT.
    destruct (CompatibleTransform (Some m1) (Some m2)) as [[]|e|msg']; [|done|].
    + by destruct (CompatibleVersion arch (Some m1) (Some m2)) as [[]|e|msg'];
        [done|done|intros [= ->]].
    + by destruct (HT msg').
Qed.

Lemma ParseFormatVersion_states arch m major minor :
  ParseFormatVersion arch (Some m) = Ok (major, minor) → states m VersionKey = true.
Proof.
  unfold ParseFormatVersion, jsonbasics.GetStringField, states.
  by destruct (index (Some m) VersionKey).
Qed.

(** X5. A file that states no version is version-compatible with every
    file whose version parses, whatever that version is; so the check is
    not transitive: two files with different majors are incompatible with
    each other and each compatible with the same version-less file. *)
Theorem CompatibleVersion_not_transitive arch m1 m2 m3 major1 minor1 major3 minor3 :
  ParseFormatVersion arch (Some m1) = Ok (major1, minor1) →
  ParseFormatVersion arch (Some m3) = Ok (major3, minor3) →
  states m2 VersionKey = false →
  major1 ≠ major3 →
  CompatibleVersion arch (Some m1) (Some m2) = Ok tt ∧
  CompatibleVersion arch (Some m2) (Some m3) = Ok tt ∧
  CompatibleVersion arch (Some m1) (Some m3) = Err (errMajor major1 minor1 major3 minor3).
Proof.
  intros H1 H3 H2 Hne. rewrite !CompatibleVersion_unfold, H2.
  rewrite (ParseFormatVersion_states arch m1 _ _ H1).
  rewrite (ParseFormatVersion_states arch m3 _ _ H3).
  rewrite H1, H3. simpl. by destruct (Z.eqb_spec major1 major3).
Qed.

Lemma CompatibleVersion_not_transitive_witness :
  CompatibleVersion GOARCH64 (Some {[ VersionKey := VStr "1.0" ]}) (Some ∅) = Ok tt ∧
  CompatibleVersion GOARCH64 (Some ∅) (Some {[ VersionKey := VStr "3.0" ]}) = Ok tt ∧
  CompatibleVersion GOARCH64 (Some {[ VersionKey := VStr "1.0" ]})
                             (Some {[ VersionKey := VStr "3.0" ]})
    = Err (errMajor 1 0 3 0).
Proof.
  apply (CompatibleVersion_not_transitive GOARCH64
           {[ VersionKey := VStr "1.0" ]} ∅ {[ VersionKey := VStr "3.0" ]} 1 0 3 0);
    [reflexivity | reflexivity | reflexivity | discriminate].
Defined.

(** *** The tool information in history entries *)

Lemma ToolVersionString_Panic st :
  (∃ msg, ToolVersionString st = Panic msg) ↔ name st = ""%string.
Proof.
  destruct (decide (name st = ""%string)) as [E|E].
  - split; [done|]. intros _. unfold ToolVersionString, ToolVersionGet.
    rewrite E. simpl. by eexists.
  - rewrite (ToolVersionString_unfold st E). split; [|done].
    intros [msg H]. by destruct (negb (commit st =? "")%string),
                                 (negb (version st =? "")%string).
Qed.

Lemma append_length (a b : string) :
  String.length (a +:+ b) = String.length a + String.length b.
Proof. induction a as [|c a IH]; simpl; [done|]. by rewrite IH. Qed.

Lemma append_nonempty (a b : string) : b ≠ ""%string → (a +:+ b)%string ≠ a.
Proof.
  intros Hb E. apply (f_equal String.length) in E. rewrite append_length in E.
  destruct b; [done|]. simpl in E. lia.
Qed.

(** X6. For a stored identity, [ToolVersionString] is the name alone
    exactly when version and commit are both empty: as soon as one of
    them is set the result is longer than the name. It panics exactly
    when no name is stored. *)
Theorem ToolVersionString_name_only st :
  ((∃ msg, ToolVersionString st = Panic msg) ↔ name st = ""%string) ∧
  (name st ≠ ""%string →
   (ToolVersionString st = Ok (name st) ↔
    version st = ""%string ∧ commit st = ""%string)).
Proof.
  split; [apply ToolVersionString_Panic|].
  intros Hn. rewrite (ToolVersionString_unfold st Hn).
  destruct (String.eqb_spec (commit st) "") as [Hc|Hc]; simpl.
  - destruct (String.eqb_spec (version st) "") as [Hv|Hv]; simpl.
    + done.
    + split; [|by intros [? _]]. intros [= E]. exfalso.
      by apply (append_nonempty (name st) (" " +:+ version st)%string).
  - split; [|by intros [_ ?]]. intros [= E]. exfalso.
    by apply (append_nonempty (name st)
                (" " +:+ version st +:+ " (" +:+ commit st +:+ ")")%string).
Qed.

Lemma ToolVersionString_name_only_witness :
  ToolVersionString {| name := "kced"; version := ""; commit := "" |} = Ok "kced"%string ↔
  (""%string = ""%string ∧ ""%string = ""%string).
Proof.
  apply (proj2 (ToolVersionString_name_only
                  {| name := "kced"; version := ""; commit := "" |})).
  discriminate.
Defined.

(** X7. [HistoryNewEntry] panics exactly when no tool name is stored (it
    formats the identity first). Otherwise it returns a map with the two
    keys "tool" and "command" and no other: the formatted identity and
    the command name. *)
Theorem HistoryNewEntry_entry st cmd :
  ((∃ msg, HistoryNewEntry st cmd = Panic msg) ↔ name st = ""%string) ∧
  (name st ≠ ""%string →
   ∃ tool entry,
     ToolVersionString st = Ok tool ∧
     HistoryNewEntry st cmd = Ok entry ∧
     entry !! "tool"%string = Some (VStr tool) ∧
     entry !! "command"%string = Some (VStr cmd) ∧
     dom entry = ({[ "tool"; "command" ]}%string : gset string)).
Proof.
  unfold HistoryNewEntry. split.
  - rewrite <- ToolVersionString_Panic.
    destruct (ToolVersionString st) as [tool|e|msg]; simpl;
      split; intros [msg' H]; try done; by eexists.
  - intros Hn. rewrite (ToolVersionString_unfold st Hn).
    set (r := if negb (commit st =? "")%string then _ else _).
    assert (∃ tool, r = Ok tool) as [tool ->].
    { unfold r. destruct (negb (commit st =? "")%string),
                         (negb (version st =? "")%string); by eexists. }
    exists tool. eexists. split_and!; [done|done|done|done|].
    rewrite !dom_insert_L, dom_empty_L. set_solver.
Qed.

Lemma HistoryNewEntry_entry_witness :
  ∃ tool entry,
    ToolVersionString {| name := "kced"; version := "1.0"; commit := "" |} = Ok tool ∧
    HistoryNewEntry {| name := "kced"; version := "1.0"; commit := "" |} "openapi2kong"
      = Ok entry ∧
    entry !! "tool"%string = Some (VStr tool) ∧
    entry !! "command"%string = Some (VStr "openapi2kong") ∧
    dom entry = ({[ "tool"; "command" ]}%string : gset string).
Proof.
  apply (proj2 (HistoryNewEntry_entry
                  {| name := "kced"; version := "1.0"; commit := "" |} "openapi2kong")).
  discriminate.
Defined.

(** *** The history of a nil file *)

(** X8. On a nil file [HistoryGet] returns an empty sequence,
    [HistoryClear] does nothing and [HistorySet] with a nil array does
    nothing; [HistorySet] with an array that is not nil panics (it assigns
    into the nil map), and so does [HistoryAppend] with any entry, since
    what it sets is never the nil array. *)
Theorem History_nil_file (σ : store) :
  (∃ s σ', HistoryGet σ None = Some (s, σ') ∧ elements σ' s = Some []) ∧
  HistoryClear None = None ∧
  HistorySet None None = Ok None ∧
  (∀ l, HistorySet None (Some l) = Panic "assignment to entry in nil map") ∧
  (∀ newEntry, ∃ σ',
     HistoryAppend σ None newEntry = Some (Panic "assignment to entry in nil map", σ')).
Proof.
  split_and!; try done.
  - rewrite (HistoryGet_empty σ None eq_refl). do 2 eexists. split; [done|].
    simpl. by rewrite lookup_insert_eq.
  - intros newEntry. eexists.
    rewrite (HistoryAppend_unfold σ None newEntry _ _ [] (HistoryGet_empty σ None eq_refl));
      [done|].
    simpl. by rewrite lookup_insert_eq.
Qed.

(** *** The command [openapi2kong] *)

Lemma HistoryAppend_clears (σ : store) m newEntry t :
  denote σ (index (Some m) HistoryKey) = Some t →
  ∃ σ' : store,
    HistoryAppend σ (Some m) newEntry = Some (Ok (Some (delete HistoryKey m)), σ') ∧
    σ ⊆ σ'.
Proof.
  intros Hd.
  destruct (HistoryGet_total σ (Some m) t Hd) as (hist & σ1 & ts & E & Hcopy).
  destruct (copy_in_elements _ _ _ _ Hcopy) as (vs & Hvs & _).
  rewrite (HistoryAppend_unfold σ (Some m) newEntry hist σ1 vs E Hvs).
  rewrite HistorySet_clears. eexists. split; [done|].
  destruct Hcopy as (Hsub & _). etrans; [done|]. apply fresh_subseteq.
Qed.

(** The arguments of the command, when its five flags can be read and a
    tool identity is stored. *)
Lemma openapi2kongArguments_Ok (ToUpper : string → string) (st : toolInfo)
    (flags : FlagSet) inputFilename outputFilename docName tags outputFormat tool :
  GetString flags "spec" = Ok inputFilename →
  GetString flags "output-file" = Ok outputFilename →
  GetString flags "uuid-base" = Ok docName →
  GetStringSlice flags "select-tag" = Ok tags →
  GetString flags "format" = Ok outputFormat →
  ToolVersionString st = Ok tool →
  openapi2kongArguments ToUpper st flags =
    Ok (inputFilename, outputFilename, ToUpper outputFormat,
        {| Tags := if Nat.eqb (length tags) 0 then None else Some tags;
           DocName := docName |},
        <["uuid-base" := VStr docName]>
          (<["output" := VStr outputFilename]>
             (<["input" := VStr inputFilename]>
                (<["command" := VStr "openapi2kong"]> (<["tool" := VStr tool]> ∅))))).
Proof.
  intros H1 H2 H3 H4 H5 Htool. unfold openapi2kongArguments, HistoryNewEntry.
  by rewrite H1, H2, H3, H4, H5, Htool.
Qed.

Section openapi2kong_properties.

Context {content : Type}.
Variable ToUpper : string → string.
Variable ReadFile : string → result content.
Variable Convert : content → O2kOptions → store → result (document * store).
Variable WriteSerializedFile : string → document → store → string → result unit.

Abbreviation run :=
  (executeOpenapi2Kong ToUpper ReadFile Convert WriteSerializedFile) (only parsing).

(** X9. The history entry never reaches the output. When the five
    flags can be read, a tool identity is stored, and the input is read
    and converted (with the tags and the document name of the flags, in
    a store that holds the history entry) into a non-nil file, the
    command reads the input, then writes once: under the name of flag
    [output-file], in the format of flag [format] put in upper case, the
    converted file without its [_ignore] key, whatever the entry and
    whatever the conversion had put under that key. The store that is
    written has every object of the store of the conversion as it was,
    so that every value of the converted file stands for the same tree
    in it. The command returns what the writer returns. *)
Theorem executeOpenapi2Kong_writes (st : toolInfo) (flags : FlagSet) (σ : store)
    inputFilename outputFilename docName tags outputFormat tool c m (σ1 : store) t :
  GetString flags "spec" = Ok inputFilename →
  GetString flags "output-file" = Ok outputFilename →
  GetString flags "uuid-base" = Ok docName →
  GetStringSlice flags "select-tag" = Ok tags →
  GetString flags "format" = Ok outputFormat →
  ToolVersionString st = Ok tool →
  ReadFile inputFilename = Ok c →
  Convert c
    {| Tags := if Nat.eqb (length tags) 0 then None else Some tags; DocName := docName |}
    (<[fresh (dom σ) :=
         OMap (map_to_list
                 (<["uuid-base" := VStr docName]>
                    (<["output" := VStr outputFilename]>
                       (<["input" := VStr inputFilename]>
                          (<["command" := VStr "openapi2kong"]>
                             (<["tool" := VStr tool]> ∅))))))]> σ)
    = Ok (Some m, σ1) →
  denote σ1 (index (Some m) HistoryKey) = Some t →
  ∃ verbosity (σ2 : store),
    run st flags σ =
      Some ([LogInitialize verbosity; FileRead inputFilename;
             FileWritten outputFilename (Some (delete HistoryKey m)) σ2
               (ToUpper outputFormat)],
            WriteSerializedFile outputFilename (Some (delete HistoryKey m)) σ2
              (ToUpper outputFormat)) ∧
    σ1 ⊆ σ2 ∧
    (∀ key v t', m !! key = Some v → denote σ1 v = Some t' → denote σ2 v = Some t').
Proof.
  intros H1 H2 H3 H4 H5 Htool Hread Hconv Hd. unfold executeOpenapi2Kong.
  rewrite (openapi2kongArguments_Ok ToUpper st flags _ _ _ _ _ _ H1 H2 H3 H4 H5 Htool).
  rewrite Hread, Hconv.
  destruct (HistoryAppend_clears σ1 m (VMap (Some (fresh (dom σ)))) t Hd)
    as (σ2 & -> & Hsub).
  simpl. exists (match GetInt flags "verbose" with Ok n => n | _ => 0%Z end), σ2.
  split_and!; [done|done|].
  intros key v t' _ Hv. apply denotes_denote. eapply denotes_mono; [|done].
  by apply denotes_denote.
Qed.

(** X10. Without a stored tool identity the command panics before any
    file is read or written, however good its flags are. *)
Theorem executeOpenapi2Kong_no_identity (st : toolInfo) (flags : FlagSet) (σ : store)
    inputFilename outputFilename docName tags outputFormat :
  name st = ""%string →
  GetString flags "spec" = Ok inputFilename →
  GetString flags "output-file" = Ok outputFilename →
  GetString flags "uuid-base" = Ok docName →
  GetStringSlice flags "select-tag" = Ok tags →
  GetString flags "format" = Ok outputFormat →
  ∃ verbosity,
    run st flags σ =
      Some ([LogInitialize verbosity],
            Panic "the tool information wasn't set, call ToolVersionSet first").
Proof.
  intros Hst H1 H2 H3 H4 H5.
  unfold executeOpenapi2Kong, openapi2kongArguments.
  rewrite H1, H2, H3, H4, H5. simpl.
  unfold HistoryNewEntry, ToolVersionString, ToolVersionGet. rewrite Hst. simpl.
  by eexists.
Qed.


End openapi2kong_properties.

Lemma executeOpenapi2Kong_writes_witness :
  ∃ verbosity (σ2 : store),
    executeOpenapi2Kong
        (λ s, if (s =? "yaml")%string then "YAML"%string else s)
        (λ _, Ok tt)
        (λ _ _ σ0, Ok (Some {[ HistoryKey := VStr "left over";
                                "services" := VArr (Some (fresh (dom σ0))) ]},
                       <[fresh (dom σ0) := OArr [VStr "svc"]]> σ0))
        (λ _ _ _ _, Ok tt)
        {| name := "kced"; version := ""; commit := "" |}
        {| GetInt := λ _, Ok 0%Z;
           GetString := λ flag, if (flag =? "format")%string then Ok "yaml"%string
                                else Ok flag;
           GetStringSlice := λ _, Ok [] |}
        ∅ =
      Some ([LogInitialize verbosity; FileRead "spec";
             FileWritten "output-file"
               (Some (delete HistoryKey
                        {[ HistoryKey := VStr "left over";
                           "services" := VArr (Some 2%positive) ]})) σ2 "YAML"],
            Ok tt) ∧
    ({[ 1%positive :=
          OMap (map_to_list
                  (<["uuid-base" := VStr "uuid-base"]>
                     (<["output" := VStr "output-file"]>
                        (<["input" := VStr "spec"]>
                           (<["command" := VStr "openapi2kong"]>
                              (<["tool" := VStr "kced"]> ∅))))));
        2%positive := OArr [VStr "svc"] ]} : gmap positive object) ⊆ σ2 ∧
    (∀ key v t',
       ({[ HistoryKey := VStr "left over";
           "services" := VArr (Some 2%positive) ]} : gmap string value) !! key = Some v →
       denote ({[ 1%positive :=
                    OMap (map_to_list
                            (<["uuid-base" := VStr "uuid-base"]>
                               (<["output" := VStr "output-file"]>
                                  (<["input" := VStr "spec"]>
                                     (<["command" := VStr "openapi2kong"]>
                                        (<["tool" := VStr "kced"]> ∅))))));
                  2%positive := OArr [VStr "svc"] ]} : gmap positive object) v = Some t' →
       denote σ2 v = Some t').
Proof.
  apply (executeOpenapi2Kong_writes
           (λ s, if (s =? "yaml")%string then "YAML"%string else s)
           (λ _, Ok tt)
           (λ _ _ σ0, Ok (Some {[ HistoryKey := VStr "left over";
                                   "services" := VArr (Some (fresh (dom σ0))) ]},
                          <[fresh (dom σ0) := OArr [VStr "svc"]]> σ0))
           (λ _ _ _ _, Ok tt)
           {| name := "kced"; version := ""; commit := "" |}
           {| GetInt := λ _, Ok 0%Z;
              GetString := λ flag, if (flag =? "format")%string then Ok "yaml"%string
                                   else Ok flag;
              GetStringSlice := λ _, Ok [] |}
           ∅ "spec" "output-file" "uuid-base" [] "yaml" "kced" tt
           {[ HistoryKey := VStr "left over"; "services" := VArr (Some 2%positive) ]}
           {[ 1%positive :=
                OMap (map_to_list
                        (<["uuid-base" := VStr "uuid-base"]>
                           (<["output" := VStr "output-file"]>
                              (<["input" := VStr "spec"]>
                                 (<["command" := VStr "openapi2kong"]>
                                    (<["tool" := VStr "kced"]> ∅))))));
              2%positive := OArr [VStr "svc"] ]}
           (TStr "left over"));
    by vm_compute.
Defined.

Lemma executeOpenapi2Kong_no_identity_witness :
  ∃ verbosity,
    executeOpenapi2Kong (λ s, s) (λ _, Ok tt)
        (λ _ _ σ0, Ok (Some ∅, σ0)) (λ _ _ _ _, Ok tt)
        toolInfo0
        {| GetInt := λ _, Ok 0%Z;
           GetString := λ flag, Ok flag;
           GetStringSlice := λ _, Ok [] |}
        ∅ =
      Some ([LogInitialize verbosity],
            Panic "the tool information wasn't set, call ToolVersionSet first").
Proof.
  eapply (executeOpenapi2Kong_no_identity (λ s, s) (λ _, Ok tt)
            (λ _ _ σ0, Ok (Some ∅, σ0)) (λ _ _ _ _, Ok tt)
            toolInfo0
            {| GetInt := λ _, Ok 0%Z;
               GetString := λ flag, Ok flag;
               GetStringSlice := λ _, Ok [] |}
            ∅); reflexivity.
Defined.
